(** * Sparse page assembly of xgboost (src/data/data.cc)

    Shallow embedding of [SparsePage] and its operations: append from an
    adapter batch, append from a page, CSC merge, transpose, sort checks
    and reindexing.  Parallel loops are modelled by their static per-thread
    slices; the two-pass group builder by the contents it places. *)

From Stdlib Require Import List Bool Arith ZArith NArith QArith Lia
  Permutation.
From Stdlib Require Strings.String QArith.Qabs.
Import ListNotations.
Local Open Scope nat_scope.

(** ** Floating-point values

    A [float] as the comparisons of the code see it: finite values
    (rationals), the two infinities and NaN.  [float_eq] is IEEE [==]:
    NaN equals nothing, not even itself. *)

Inductive Float : Type :=
| Fin (q : Q)
| PInf
| NInf
| NaN.

Definition isinf (x : Float) : bool :=
  match x with PInf | NInf => true | _ => false end.

Definition CheckNAN (x : Float) : bool :=
  match x with NaN => true | _ => false end.

Definition float_eq (x y : Float) : bool :=
  match x, y with
  | Fin a, Fin b => Qeq_bool a b
  | PInf, PInf => true
  | NInf, NInf => true
  | _, _ => false
  end.

(** ** Entries and pages *)

(** [Entry]: a [bst_feature_t] (32-bit) column index and a value. *)
Record Entry : Type := mkEntry { index : N; fvalue : Float }.

(** [Entry()] value-initialised: index 0, value 0. *)
Definition default_entry : Entry := mkEntry 0 (Fin 0).

(** [bst_feature_t] is 32 bits wide: conversions into it wrap. *)
Definition to_u32 (x : N) : N := N.modulo x (2 ^ 32).

(** [size_t] and [uint64_t] are 64 bits wide: their arithmetic wraps. *)
Definition to_size_t (x : Z) : Z := Z.modulo x (2 ^ 64).

Definition to_uint64 (x : N) : N := N.modulo x (2 ^ 64).

(** [SparsePage]: row offsets (prefix sums into [data]), the entries, and
    the global index of local row 0. *)
Record SparsePage : Type :=
  mkPage { offset : list nat; data : list Entry; base_rowid : nat }.

(** Modelled from the spec: [SparsePage::Size()] (declared in data.h, not
    in this excerpt), the number of local rows, [offset.size() - 1], and 0
    for an empty offset array. *)
Definition Size (p : SparsePage) : nat := length (offset p) - 1.

(** Modelled from the spec: a freshly constructed page, [offset = [0]],
    [data = []]. *)
Definition empty_page : SparsePage := mkPage [0] [] 0.

(** Modelled from the spec: [GetView()[i]] (data.h), the entries of row
    [i], positions [offset[i] .. offset[i+1]) of [data]. *)
Definition row (p : SparsePage) (i : nat) : list Entry :=
  let beg := nth i (offset p) 0 in
  let en := nth (S i) (offset p) 0 in
  firstn (en - beg) (skipn beg (data p)).

Definition rows (p : SparsePage) : list (list Entry) :=
  map (row p) (seq 0 (Size p)).

(** The shape invariant of the spec. *)
Definition shape_ok (p : SparsePage) : Prop :=
  length (data p) = last (offset p) 0 /\
  length (offset p) = Size p + 1.

(** [std::vector::resize]: truncate, or pad with value-initialised
    elements. *)
Definition resize {A} (d : A) (n : nat) (l : list A) : list A :=
  firstn n l ++ repeat d (n - length l).

(** ** Static thread slices

    The batch loops of [Push] split [0 .. size) into [nthread] contiguous
    slices of [size / nthread] elements, the last thread taking the
    remainder.  Modelled from the spec: [common::ParallelFor] (not in this
    excerpt) schedules its iterations the same way (spec section 5). *)
Definition thread_slices {A} (nthread : nat) (l : list A) : list (list A) :=
  let thread_size := length l / nthread in
  map (fun tid =>
         let b := tid * thread_size in
         if tid =? nthread - 1 then skipn b l
         else firstn thread_size (skipn b l))
      (seq 0 nthread).

(** ** Parallel group builder

    Modelled from the spec: [common::ParallelGroupBuilder] (group_data.h,
    not in this excerpt).  Each thread contributes the records
    [(group id, value)] it budgeted in pass 1 and places in pass 2, in its
    traversal order.  [InitBudget(max_key, _)] sizes the table for the
    group ids from [base_row_offset] below [max_key]; a budgeted id beyond
    the table extends it.  [InitStorage] appends the prefix sums of the
    group totals to [offset] (starting from its last element) and resizes
    [data]; [Push] writes each thread's records for a group after those of
    the lower thread ids. *)
Definition builder_slots (base max_key : nat)
    (threads : list (list (nat * Entry))) : nat :=
  fold_left (fun acc r => Nat.max acc (S (fst r - base)))
            (concat threads) (max_key - base).

Definition builder_group (base : nat) (threads : list (list (nat * Entry)))
    (slot : nat) : list Entry :=
  concat (map (fun th => map snd (filter (fun r => fst r =? base + slot) th))
              threads).

Fixpoint prefix_from (acc : nat) (counts : list nat) : list nat :=
  match counts with
  | [] => []
  | c :: cs => (acc + c) :: prefix_from (acc + c) cs
  end.

Definition builder_run (off : list nat) (dat : list Entry) (base max_key : nat)
    (threads : list (list (nat * Entry))) : list nat * list Entry :=
  let groups := map (builder_group base threads)
                    (seq 0 (builder_slots base max_key threads)) in
  let top := last off 0 in
  (off ++ prefix_from top (map (@length Entry) groups),
   resize default_entry top dat ++ concat groups).

(** ** Adapter batches *)

(** Modelled from the spec: [data::COOTuple] (adapter.h, not in this
    excerpt), a [(row_idx, column_idx, value)] element of a line, the row
    in the batch's global numbering; both indices are [size_t]. *)
Record COOTuple : Type :=
  mkTuple { row_idx : N; column_idx : N; value : Float }.

(** Modelled from the spec: an adapter batch, its lines ([Size()],
    [GetLine], [GetElement]) and whether it is row-major. *)
Record AdapterBatch : Type :=
  mkBatch { kIsRowMajor : bool; lines : list (list COOTuple) }.

Definition tuples (b : AdapterBatch) : list COOTuple := concat (lines b).

(** Modelled from the spec: [data::IsValidFunctor] (adapter.h), the
    Validity Filter: the value is not NaN and differs from [missing]. *)
Definition IsValidFunctor (missing : Float) (e : COOTuple) : bool :=
  negb (CheckNAN (value e)) && negb (float_eq (value e) missing).

Definition default_tuple : COOTuple := mkTuple 0 0 (Fin 0).

(** How [Push] (or a parallel region it starts) stops: the failed
    [CHECK(valid) << InfInData], the failed [CHECK_GE(key,
    builder_base_row_offset)], a wrapped key handed to the group builder,
    or the trap of [batch_size / nthread] with no thread.  A key that
    wrapped around in [size_t] is at least [2^64 - base_rowid]; the
    builder's per-thread table (modelled from the spec:
    [ParallelGroupBuilder], group_data.h, not in this excerpt) would have
    to grow to that many counters, past what a [std::vector] can hold, or
    its index wraps once more and the count is written out of bounds:
    [Push] does not return normally, which [KeyWrapped] stands for. *)
Inductive push_error : Type :=
| InfInData
| RowBelowBase
| KeyWrapped
| DivByZero.

Inductive result (A : Type) : Type :=
| Ok (a : A)
| Err (e : push_error).
Arguments Ok {A} a.
Arguments Err {A} e.

(** [SparsePage::Push(AdapterBatchT const&, float, int32_t)].  The key of
    a tuple is [row_idx - base_rowid] in [size_t], wrapping around for a
    row below [base_rowid]; a key below the builder base fails the
    [CHECK_GE] of the first pass.  [InitBudget] sizes the table by
    [expected_rows], the key of the batch's last tuple for a column-major
    batch, and the first pass budgets the key of every tuple that passes
    the Validity Filter: a wrapped key there is [KeyWrapped].  The wrapped
    key of a tuple that is not budgeted is only compared, and does
    nothing.  The column count is the largest [column_idx + 1], each
    computed in [uint64_t]. *)
Definition push_batch (p : SparsePage) (b : AdapterBatch) (missing : Float)
    (nthread : nat) : result (SparsePage * N) :=
  let nthread := if kIsRowMajor b then nthread else 1 in
  let key (t : COOTuple) : Z :=
    to_size_t (Z.of_N (row_idx t) - Z.of_nat (base_rowid p)) in
  let wrapped (t : COOTuple) : bool :=
    (Z.of_N (row_idx t) <? Z.of_nat (base_rowid p))%Z in
  let builder_base_row_offset := Size p in
  let batch_size := length (lines b) in
  let last_line := last (lines b) [] in
  let expected_rows :=
    if kIsRowMajor b then batch_size
    else match last_line with
         | [] => 0
         | _ => Z.to_nat (key (last last_line default_tuple))
         end in
  if batch_size =? 0 then Ok (p, 0%N) else
  if nthread =? 0 then Err DivByZero else
  (* InitBudget(expected_rows, nthread) *)
  if negb (kIsRowMajor b)
     && match last_line with
        | [] => false
        | _ => wrapped (last last_line default_tuple)
        end then Err KeyWrapped else
  let slices := thread_slices nthread (lines b) in
  (* first pass: admissibility, keys, column maxima, budgets *)
  if existsb (fun t => (key t <? Z.of_nat builder_base_row_offset)%Z)
             (tuples b) then Err RowBelowBase else
  if existsb (fun t => IsValidFunctor missing t && wrapped t) (tuples b)
  then Err KeyWrapped else
  if negb (isinf missing) && existsb (fun t => isinf (value t)) (tuples b)
  then Err InfInData else
  let max_columns_vector :=
    map (fun sl => fold_left (fun m t => N.max m (to_uint64 (column_idx t + 1)))
                             (concat sl) 0%N) slices in
  let max_columns := fold_left N.max max_columns_vector 0%N in
  (* second pass: placement of the valid tuples *)
  let placed :=
    map (fun sl => map (fun t => (Z.to_nat (key t),
                                  mkEntry (to_u32 (column_idx t)) (value t)))
                       (filter (IsValidFunctor missing) (concat sl)))
        slices in
  let (off, dat) := builder_run (offset p) (data p) builder_base_row_offset
                                expected_rows placed in
  Ok (mkPage off dat (base_rowid p), max_columns).

(** ** Page to page operations *)

(** [SparsePage::Push(const SparsePage&)]: row-major concatenation. *)
Definition push_page (p batch : SparsePage) : SparsePage :=
  let top := last (offset p) 0 in
  let grown := resize default_entry (top + length (data batch)) (data p) in
  let data' := firstn top grown ++ data batch in
  let tail := map (fun i => top + nth (S i) (offset batch) 0)
                  (seq 0 (Size batch)) in
  mkPage (offset p ++ tail) data' (base_rowid p).

(** The per-feature loop of [PushCSC]: copies, for each feature, this
    page's slice and then the other page's slice, recording the running
    offset; [total] is the size of the fresh buffer, checked by
    [CHECK_LE(beg, data.size())] before each copy. *)
Fixpoint csc_loop (so : list nat) (sd : list Entry) (oo : list nat)
    (od : list Entry) (total : nat) (features : list nat) (beg : nat)
    : option (list nat * list Entry) :=
  match features with
  | [] => Some ([], [])
  | i :: fs =>
      let self_beg := nth i so 0 in
      let self_length := nth (S i) so 0 - self_beg in
      let other_beg := nth i oo 0 in
      let other_length := nth (S i) oo 0 - other_beg in
      if total <? beg then None else
      let beg1 := beg + self_length in
      if total <? beg1 then None else
      let beg2 := beg1 + other_length in
      match csc_loop so sd oo od total fs beg2 with
      | None => None
      | Some (offs, ds) =>
          Some (beg2 :: offs,
                firstn self_length (skipn self_beg sd)
                  ++ firstn other_length (skipn other_beg od) ++ ds)
      end
  end.

(** [SparsePage::PushCSC]; [None] is a failed check. *)
Definition push_csc (p batch : SparsePage) : option SparsePage :=
  let self_data := data p in
  let self_offset := offset p in
  let other_data := data batch in
  let other_offset := offset batch in
  match other_data with
  | [] => Some (mkPage other_offset self_data (base_rowid p))
  | _ =>
    match self_data with
    | [] => Some (mkPage other_offset other_data (base_rowid p))
    | _ =>
      if negb (length self_offset =? length other_offset) then None else
      let total := length self_data + length other_data in
      let n_features := length other_offset - 1 in
      match csc_loop self_offset self_data other_offset other_data total
                     (seq 0 n_features) 0 with
      | None => None
      | Some (offs, ds) =>
          Some (mkPage (0 :: offs) (resize default_entry total ds)
                       (base_rowid p))
      end
    end
  end.

(** [SparsePage::GetTranspose(num_columns, n_threads)]: every entry of row
    [i] goes to group [entry.index] as [Entry(base_rowid + i, fvalue)]
    (the row id converted to [bst_uint]); [None] is the failed
    [CHECK_EQ(transpose.offset.Size(), num_columns + 1)]. *)
Definition transpose_recs (p : SparsePage) (i : nat) : list (nat * Entry) :=
  map (fun e => (N.to_nat (index e),
                 mkEntry (to_u32 (N.of_nat (base_rowid p + i))) (fvalue e)))
      (row p i).

Definition get_transpose (p : SparsePage) (num_columns n_threads : nat)
    : option SparsePage :=
  let threads := map (fun sl => concat (map (transpose_recs p) sl))
                     (thread_slices n_threads (seq 0 (Size p))) in
  let (off, dat) := builder_run [0] [] 0 num_columns threads in
  let off := match data p with
             | [] => repeat 0 (num_columns + 1)
             | _ => off
             end in
  if length off =? num_columns + 1 then Some (mkPage off dat 0) else None.

(** ** Sorting and reindexing *)

(** [Entry::CmpIndex]. *)
Definition CmpIndex (a b : Entry) : bool := (index a <? index b)%N.

(** IEEE [<] on values. *)
Definition float_lt (x y : Float) : bool :=
  match x, y with
  | Fin a, Fin b => negb (Qle_bool b a)
  | NInf, (Fin _ | PInf) => true
  | Fin _, PInf => true
  | _, _ => false
  end.

(** [Entry::CmpValue]. *)
Definition CmpValue (a b : Entry) : bool := float_lt (fvalue a) (fvalue b).

(** [std::is_sorted(first, last, comp)]: no element compares below its
    predecessor. *)
Fixpoint is_sorted_by (comp : Entry -> Entry -> bool) (l : list Entry)
    : bool :=
  match l with
  | x :: ((y :: _) as t) => negb (comp y x) && is_sorted_by comp t
  | _ => true
  end.

(** [std::sort(first, last, comp)], as an insertion sort (the order it
    gives equivalent elements is one of those [std::sort] may give). *)
Fixpoint insert_by (comp : Entry -> Entry -> bool) (x : Entry)
    (l : list Entry) : list Entry :=
  match l with
  | [] => [x]
  | y :: t => if comp y x then y :: insert_by comp x t else x :: y :: t
  end.

Definition std_sort (comp : Entry -> Entry -> bool) (l : list Entry)
    : list Entry :=
  fold_right (insert_by comp) [] l.

(** Two's-complement conversion of the [int32_t] counters of
    [IsIndicesSorted]. *)
Definition to_int32 (x : Z) : Z :=
  (Z.modulo (x + 2 ^ 31) (2 ^ 32) - 2 ^ 31)%Z.

(** [SparsePage::IsIndicesSorted(n_threads)]: the thread count is clamped
    to [max(min(n_threads, Size()), 1)], each thread adds the sorted rows
    of its slice into an [int32_t] counter, and the counters are summed
    into a [size_t] compared with [Size()]. *)
Definition IsIndicesSorted (p : SparsePage) (n_threads : Z) : bool :=
  let n := Nat.max (Nat.min (Z.to_nat (to_size_t n_threads)) (Size p)) 1 in
  let is_sorted_tloc :=
    map (fun sl =>
           fold_left (fun c i =>
                        to_int32 (c + if is_sorted_by CmpIndex (row p i)
                                       then 1 else 0))
                     sl 0%Z)
        (thread_slices n (seq 0 (Size p))) in
  (fold_left (fun acc c => to_size_t (acc + to_size_t c)) is_sorted_tloc 0
     =? Z.of_nat (Size p))%Z.

(** The rows are disjoint, so the parallel per-row loops of [SortIndices]
    and [SortRows] act as a loop over the rows in order. *)
Definition sort_each_row (sortf : list Entry -> list Entry) (p : SparsePage)
    : SparsePage :=
  let dat :=
    fold_left (fun d i =>
                 let beg := nth i (offset p) 0 in
                 let en := nth (S i) (offset p) 0 in
                 firstn beg d ++ sortf (firstn (en - beg) (skipn beg d))
                        ++ skipn en d)
              (seq 0 (Size p)) (data p) in
  mkPage (offset p) dat (base_rowid p).

(** [SparsePage::SortIndices]. *)
Definition SortIndices (p : SparsePage) : SparsePage :=
  sort_each_row (std_sort CmpIndex) p.

(** [SparsePage::SortRows]; an empty row is left alone, as sorting it
    would. *)
Definition SortRows (p : SparsePage) : SparsePage :=
  sort_each_row (std_sort CmpValue) p.

(** [SparsePage::Reindex(feature_offset, n_threads)]: [index +=
    feature_offset] on every entry, the sum stored back into the 32-bit
    index. *)
Definition Reindex (p : SparsePage) (feature_offset : N) : SparsePage :=
  mkPage (offset p)
         (map (fun e => mkEntry (to_u32 (index e + feature_offset))
                                (fvalue e)) (data p))
         (base_rowid p).

(** The [(row, column, value)] triples of a page, rows numbered locally. *)
Definition triples (p : SparsePage) : list (nat * N * Float) :=
  concat (map (fun i => map (fun e => (i, index e, fvalue e)) (row p i))
              (seq 0 (Size p))).

(** ** List facts used by the proofs *)

Lemma firstn_plus {A} (a b : nat) (l : list A) :
  firstn (a + b) l = firstn a l ++ firstn b (skipn a l).
Proof.
  revert l; induction a as [|a IH]; intros [|x l]; simpl; auto.
  - now rewrite firstn_nil.
  - now rewrite IH.
Qed.

Lemma filter_all {A} (f : A -> bool) (l : list A) :
  (forall x, In x l -> f x = true) -> filter f l = l.
Proof.
  induction l as [|x l IH]; intros H; simpl; auto.
  rewrite (H x (or_introl eq_refl)), IH; auto.
  intros y Hy; apply H; now right.
Qed.

Lemma concat_map_concat {A B} (f : A -> list B) (L : list (list A)) :
  concat (map (fun sl => concat (map f sl)) L) = concat (map f (concat L)).
Proof.
  induction L as [|l L IH]; simpl; auto.
  now rewrite map_app, concat_app, IH.
Qed.

Lemma filter_concat {A} (f : A -> bool) (L : list (list A)) :
  concat (map (filter f) L) = filter f (concat L).
Proof.
  induction L as [|l L IH]; simpl; auto.
  now rewrite filter_app, IH.
Qed.

(** The static slices of [n >= 1] threads cover the iterations in order. *)
Lemma thread_slices_concat {A} (n : nat) (l : list A) :
  0 < n -> concat (thread_slices n l) = l.
Proof.
  intros Hn; unfold thread_slices.
  set (ts := length l / n).
  destruct n as [|m]; [lia|].
  replace (S m - 1) with m by lia.
  rewrite seq_S, map_app, concat_app; simpl.
  rewrite Nat.eqb_refl, app_nil_r.
  assert (Hk : forall k, k <= m ->
    concat (map (fun tid => if tid =? m then skipn (tid * ts) l
                            else firstn ts (skipn (tid * ts) l)) (seq 0 k))
    = firstn (k * ts) l).
  { induction k as [|k IH]; intros Hk; [reflexivity|].
    rewrite seq_S, map_app, concat_app, IH by lia; simpl.
    destruct (Nat.eqb_spec k m) as [E|E]; [lia|].
    rewrite app_nil_r, <- firstn_plus; f_equal; lia. }
  rewrite Hk by lia.
  apply firstn_skipn.
Qed.

(** ** Facts about the group builder *)

Lemma builder_group_concat (base : nat) (threads : list (list (nat * Entry)))
    (slot : nat) :
  builder_group base threads slot
  = map snd (filter (fun r => fst r =? base + slot) (concat threads)).
Proof.
  unfold builder_group.
  induction threads as [|th ts IH]; simpl; auto.
  now rewrite IH, filter_app, map_app.
Qed.

Lemma length_prefix_from (acc : nat) (cs : list nat) :
  length (prefix_from acc cs) = length cs.
Proof.
  revert acc; induction cs as [|c cs IH]; intros acc; simpl; auto.
Qed.

Lemma last_app_prefix_from (cs : list nat) :
  forall (l : list nat) (acc : nat), last l 0 = acc ->
  last (l ++ prefix_from acc cs) 0 = acc + list_sum cs.
Proof.
  induction cs as [|c cs IH]; intros l acc Hl; simpl.
  - now rewrite app_nil_r, Hl, Nat.add_0_r.
  - replace (l ++ acc + c :: prefix_from (acc + c) cs)
      with ((l ++ [acc + c]) ++ prefix_from (acc + c) cs)
      by now rewrite <- app_assoc.
    rewrite (IH (l ++ [acc + c]) (acc + c)) by apply last_last.
    lia.
Qed.

Lemma length_resize {A} (d : A) (n : nat) (l : list A) :
  length (resize d n l) = n.
Proof.
  unfold resize; rewrite length_app, length_firstn, repeat_length; lia.
Qed.

(** After [InitStorage] the entry count is the last offset, whatever the
    target held before. *)
Lemma builder_run_shape (off : list nat) (dat : list Entry)
    (base max_key : nat) (threads : list (list (nat * Entry))) :
  let (off', dat') := builder_run off dat base max_key threads in
  length dat' = last off' 0 /\
  length off' = length off + builder_slots base max_key threads.
Proof.
  unfold builder_run; split.
  - rewrite last_app_prefix_from with (acc := last off 0) by reflexivity.
    rewrite length_app, length_resize, length_concat; reflexivity.
  - now rewrite length_app, length_prefix_from, !length_map, length_seq.
Qed.

(** The rows of a page built from groups are the groups. *)
Lemma row_built (gs : list (list Entry)) :
  forall (a : nat) (d : list Entry) (b : nat) (i : nat),
  length d = a -> i < length gs ->
  row (mkPage (a :: prefix_from a (map (@length Entry) gs))
              (d ++ concat gs) b) i = nth i gs [].
Proof.
  induction gs as [|g gs IH]; intros a d b i Hd Hi; simpl in Hi; [lia|].
  destruct i as [|i].
  - unfold row; simpl.
    replace (a + length g - a) with (length g) by lia.
    rewrite skipn_app, Hd, Nat.sub_diag, skipn_all2 by lia; simpl.
    now rewrite firstn_app, Nat.sub_diag, firstn_all; simpl; rewrite app_nil_r.
  - specialize (IH (a + length g) (d ++ g) b i).
    rewrite <- app_assoc in IH.
    simpl; rewrite <- IH by (rewrite ?length_app; lia).
    reflexivity.
Qed.



Lemma fold_max_keys (base : nat) (l : list (nat * Entry)) (acc : nat) :
  (forall r, In r l -> S (fst r - base) <= acc) ->
  fold_left (fun acc r => Nat.max acc (S (fst r - base))) l acc = acc.
Proof.
  revert acc; induction l as [|r l IH]; intros acc H; simpl; auto.
  rewrite Nat.max_l by (apply H; now left).
  apply IH; intros; apply H; now right.
Qed.

Lemma nth_map_seq {A} (f : nat -> A) (n i : nat) (d : A) :
  i < n -> nth i (map f (seq 0 n)) d = f i.
Proof.
  intros Hi; rewrite nth_indep with (d' := f 0) by (rewrite length_map, length_seq; lia).
  now rewrite map_nth, seq_nth.
Qed.

(** ** Facts about triples *)


Lemma in_triples (p : SparsePage) (i : nat) (c : N) (v : Float) :
  In (i, c, v) (triples p) <->
  i < Size p /\ exists e, In e (row p i) /\ index e = c /\ fvalue e = v.
Proof.
  unfold triples; rewrite in_concat; split.
  - intros (l & Hl & Hin).
    apply in_map_iff in Hl as (j & <- & Hj); apply in_seq in Hj.
    apply in_map_iff in Hin as (e & He & Hin); inversion He; subst.
    split; [lia|]; eauto.
  - intros (Hi & e & He & <- & <-).
    exists (map (fun e0 => (i, index e0, fvalue e0)) (row p i)); split.
    + apply in_map_iff; exists i; split; [reflexivity|apply in_seq; lia].
    + apply in_map_iff; eauto.
Qed.

Lemma row_empty_data (p : SparsePage) (i : nat) :
  data p = [] -> row p i = [].
Proof.
  intros H; unfold row; rewrite H, skipn_nil; apply firstn_nil.
Qed.


Lemma map_const_seq {A} (a : A) (s k : nat) :
  map (fun _ => a) (seq s k) = repeat a k.
Proof. revert s; induction k as [|k IH]; intros s; simpl; congruence. Qed.




(** ** C8: transposing twice *)





(** ** C6, C7, C10: appending pages and batches, reindexing *)

Lemma map_nth_seq_self {A} (d : A) (l : list A) :
  map (fun i => nth i l d) (seq 0 (length l)) = l.
Proof.
  induction l as [|x l IH]; simpl; auto.
  now rewrite <- seq_shift, map_map, IH.
Qed.

(** C6: pushing a batch with no lines returns 0 and leaves the page
    (offsets, entries, [base_rowid]) as it was. *)
Theorem C6_push_empty_batch (p : SparsePage) (row_major : bool)
    (missing : Float) (nthread : nat) :
  push_batch p (mkBatch row_major []) missing nthread = Ok (p, 0%N).
Proof. reflexivity. Qed.

(** On a page whose entry count is its last offset, [Push(other)] is a
    plain concatenation of the entries, the other page's offsets shifted. *)
Lemma push_page_eq (p b : SparsePage) :
  length (data p) = last (offset p) 0 ->
  push_page p b
  = mkPage (offset p ++ map (fun o => last (offset p) 0 + o) (tl (offset b)))
           (data p ++ data b) (base_rowid p).
Proof.
  intros Hd; unfold push_page; f_equal.
  - f_equal; unfold Size.
    destruct (offset b) as [|o0 os]; simpl; auto.
    rewrite Nat.sub_0_r.
    rewrite <- (map_map (fun i => nth i os 0) (fun o => last (offset p) 0 + o)).
    now rewrite map_nth_seq_self.
  - f_equal; unfold resize.
    rewrite (firstn_all2 (n := last (offset p) 0 + length (data b)) (data p)) by lia.
    rewrite firstn_app, <- Hd, Nat.sub_diag, firstn_all; simpl.
    apply app_nil_r.
Qed.

(** C7: on a page whose entry count is its last offset, [Push(other)]
    appends the other page's entries after its own and extends its offsets
    by [other.offset[1..]] shifted by its former last offset; [base_rowid]
    is kept (and the other page, an input, is not changed). *)
Theorem C7_push_page (p b : SparsePage) :
  length (data p) = last (offset p) 0 ->
  push_page p b
  = mkPage (offset p ++ map (fun o => last (offset p) 0 + o) (tl (offset b)))
           (data p ++ data b) (base_rowid p).
Proof.
  intros Hd; unfold push_page; f_equal.
  - f_equal; unfold Size.
    destruct (offset b) as [|o0 os]; simpl; auto.
    rewrite Nat.sub_0_r.
    rewrite <- (map_map (fun i => nth i os 0) (fun o => last (offset p) 0 + o)).
    now rewrite map_nth_seq_self.
  - f_equal; unfold resize.
    rewrite (firstn_all2 (n := last (offset p) 0 + length (data b)) (data p)) by lia.
    rewrite firstn_app, <- Hd, Nat.sub_diag, firstn_all; simpl.
    apply app_nil_r.
Qed.

Lemma C7_push_page_witness :
  length (data (mkPage [0; 1] [mkEntry 3 (Fin 1)] 5))
    = last (offset (mkPage [0; 1] [mkEntry 3 (Fin 1)] 5)) 0 /\
  push_page (mkPage [0; 1] [mkEntry 3 (Fin 1)] 5)
            (mkPage [0; 2; 2] [mkEntry 0 (Fin 2); mkEntry 1 NaN] 0)
  = mkPage [0; 1; 3; 3] [mkEntry 3 (Fin 1); mkEntry 0 (Fin 2); mkEntry 1 NaN] 5.
Proof.
  split; [reflexivity|].
  rewrite C7_push_page by reflexivity; reflexivity.
Defined.

(** C10: [Reindex(feature_offset)] keeps the offsets, [base_rowid], the
    row count, the entry count and every value; each column index becomes
    [index + feature_offset] in the 32-bit index type. *)
Theorem C10_reindex_frame (p : SparsePage) (feature_offset : N) :
  offset (Reindex p feature_offset) = offset p /\
  base_rowid (Reindex p feature_offset) = base_rowid p /\
  Size (Reindex p feature_offset) = Size p /\
  length (data (Reindex p feature_offset)) = length (data p) /\
  map fvalue (data (Reindex p feature_offset)) = map fvalue (data p) /\
  map index (data (Reindex p feature_offset))
    = map (fun e => to_u32 (index e + feature_offset)) (data p).
Proof.
  unfold Reindex, Size; simpl.
  rewrite length_map, !map_map; repeat split; reflexivity.
Qed.

(** ** C2, C4, C5: appending an adapter batch *)

(** The largest [column_idx + 1] of a list of tuples (0 when empty), each
    computed in [uint64_t]: the reduction the first pass of [Push]
    performs. *)
Definition col_max (l : list COOTuple) : N :=
  fold_left (fun m t => N.max m (to_uint64 (column_idx t + 1))) l 0%N.

Lemma fold_col_max_acc (l : list COOTuple) (a : N) :
  fold_left (fun m t => N.max m (to_uint64 (column_idx t + 1))) l a
  = N.max a (col_max l).
Proof.
  unfold col_max; revert a; induction l as [|t l IH]; intros a; simpl.
  - now rewrite N.max_0_r.
  - rewrite IH, (IH (N.max 0 _)), N.max_0_l, N.max_assoc; reflexivity.
Qed.

Lemma col_max_cons (t : COOTuple) (l : list COOTuple) :
  col_max (t :: l) = N.max (to_uint64 (column_idx t + 1)) (col_max l).
Proof.
  unfold col_max at 1; simpl; rewrite fold_col_max_acc, N.max_0_l; reflexivity.
Qed.

Lemma col_max_app (l1 l2 : list COOTuple) :
  col_max (l1 ++ l2) = N.max (col_max l1) (col_max l2).
Proof.
  unfold col_max at 1; rewrite fold_left_app, fold_col_max_acc; reflexivity.
Qed.

Lemma fold_max_col_max (L : list (list COOTuple)) (a : N) :
  fold_left N.max (map col_max L) a = N.max a (col_max (concat L)).
Proof.
  revert a; induction L as [|l L IH]; intros a; simpl.
  - now rewrite N.max_0_r.
  - now rewrite IH, col_max_app, N.max_assoc.
Qed.

Lemma col_max_upper (l : list COOTuple) (t : COOTuple) :
  In t l -> (to_uint64 (column_idx t + 1) <= col_max l)%N.
Proof.
  induction l as [|x l IH]; intros Hin; [destruct Hin|].
  rewrite col_max_cons; destruct Hin as [<-|Hin].
  - apply N.le_max_l.
  - etransitivity; [apply IH, Hin|apply N.le_max_r].
Qed.

Lemma col_max_attained (l : list COOTuple) :
  l <> [] -> exists t, In t l /\ (to_uint64 (column_idx t + 1) = col_max l)%N.
Proof.
  induction l as [|x l IH]; intros Hne; [congruence|].
  rewrite col_max_cons.
  destruct l as [|y l].
  - exists x; split; [now left|]; unfold col_max; simpl; lia.
  - destruct IH as (t & Ht & Heq); [discriminate|].
    destruct (N.max_spec (to_uint64 (column_idx x + 1)) (col_max (y :: l)))
      as [[_ ->]|[_ ->]].
    + exists t; split; [now right|exact Heq].
    + exists x; split; [now left|reflexivity].
Qed.

Lemma to_uint64_small (x : N) : (x < 2 ^ 64)%N -> to_uint64 x = x.
Proof. intros H; unfold to_uint64; apply N.mod_small, H. Qed.

Lemma concat_map_concat_eq {A} (L : list (list (list A))) :
  concat (map (@concat A) L) = concat (concat L).
Proof.
  induction L as [|l L IH]; simpl; auto.
  now rewrite concat_app, IH.
Qed.

(** [Push], once the emptiness and thread checks have passed: the table
    sizing of [InitBudget], the row check, the budgeting of wrapped keys,
    the admissibility check, then the placement. *)
Lemma push_batch_unfold (p : SparsePage) (b : AdapterBatch) (missing : Float)
    (nthread : nat) :
  lines b <> [] -> 0 < (if kIsRowMajor b then nthread else 1) ->
  push_batch p b missing nthread =
  if negb (kIsRowMajor b)
     && match last (lines b) [] with
        | [] => false
        | _ => (Z.of_N (row_idx (last (last (lines b) []) default_tuple))
                  <? Z.of_nat (base_rowid p))%Z
        end then Err KeyWrapped else
  if existsb (fun t => (to_size_t (Z.of_N (row_idx t) - Z.of_nat (base_rowid p))
                          <? Z.of_nat (Size p))%Z) (tuples b)
  then Err RowBelowBase else
  if existsb (fun t => IsValidFunctor missing t
                       && (Z.of_N (row_idx t) <? Z.of_nat (base_rowid p))%Z)
             (tuples b)
  then Err KeyWrapped else
  if negb (isinf missing) && existsb (fun t => isinf (value t)) (tuples b)
  then Err InfInData else
  let nth' := if kIsRowMajor b then nthread else 1 in
  let slices := thread_slices nth' (lines b) in
  let key (t : COOTuple) : Z :=
    to_size_t (Z.of_N (row_idx t) - Z.of_nat (base_rowid p)) in
  let last_line := last (lines b) [] in
  let expected_rows :=
    if kIsRowMajor b then length (lines b)
    else match last_line with
         | [] => 0
         | _ => Z.to_nat (key (last last_line default_tuple))
         end in
  let placed :=
    map (fun sl => map (fun t => (Z.to_nat (key t),
                                  mkEntry (to_u32 (column_idx t)) (value t)))
                       (filter (IsValidFunctor missing) (concat sl)))
        slices in
  let (off, dat) := builder_run (offset p) (data p) (Size p)
                                expected_rows placed in
  Ok (mkPage off dat (base_rowid p), col_max (tuples b)).
Proof.
  intros Hne Hn; unfold push_batch.
  destruct (Nat.eqb_spec (length (lines b)) 0) as [E|_].
  { destruct (lines b); [congruence|discriminate]. }
  destruct (Nat.eqb_spec (if kIsRowMajor b then nthread else 1) 0) as [E|_];
    [lia|].
  cbv zeta.
  destruct (negb (kIsRowMajor b) && _); [reflexivity|].
  destruct (existsb _ (tuples b)); [reflexivity|].
  destruct (existsb _ (tuples b)); [reflexivity|].
  destruct (negb (isinf missing) && _); [reflexivity|].
  rewrite (map_ext (fun x => fold_left _ (concat x) 0%N)
                   (fun x => col_max (concat x))) by reflexivity.
  rewrite <- (map_map (@concat COOTuple) col_max), fold_max_col_max,
    N.max_0_l, concat_map_concat_eq, thread_slices_concat by exact Hn.
  reflexivity.
Qed.

Lemma push_batch_ok_max (p : SparsePage) (b : AdapterBatch) (missing : Float)
    (nthread : nat) (p' : SparsePage) (r : N) :
  push_batch p b missing nthread = Ok (p', r) -> r = col_max (tuples b).
Proof.
  intros H.
  destruct (lines b) as [|l ls] eqn:Hl.
  { unfold push_batch in H; rewrite Hl in H; simpl in H.
    injection H as _ <-; unfold tuples; now rewrite Hl. }
  destruct (Nat.eq_dec (if kIsRowMajor b then nthread else 1) 0) as [Hn|Hn].
  { unfold push_batch in H; cbv zeta in H; rewrite Hl, Hn in H.
    discriminate H. }
  rewrite push_batch_unfold in H by (congruence || lia).
  destruct (negb _ && _); [discriminate|].
  destruct (existsb _ _); [discriminate|].
  destruct (existsb _ _); [discriminate|].
  destruct (negb _ && _); [discriminate|].
  cbv zeta in H; destruct (builder_run _ _ _ _ _).
  now injection H as _ <-.
Qed.

(** A one-tuple batch whose column index is the largest [size_t]. *)
Definition batch_col_top : AdapterBatch :=
  mkBatch true [[mkTuple 0 (2 ^ 64 - 1) (Fin 1)]].

(** C5 (as stated, refuted): [Push] returns the largest column index plus
    one.  A tuple of column [2^64 - 1] makes [column_idx + 1] wrap around
    to 0 in [uint64_t], and [Push] returns 0, not [2^64]. *)
Lemma C5_push_returns_max_column_cex :
  exists p', push_batch empty_page batch_col_top (Fin 0) 1 = Ok (p', 0%N) /\
  (forall t, In t (tuples batch_col_top) -> (column_idx t + 1 = 2 ^ 64)%N) /\
  ~ (exists t, In t (tuples batch_col_top) /\ (column_idx t + 1 = 0)%N).
Proof.
  eexists; split; [vm_compute; reflexivity|]; split.
  - intros t [<-|[]]; reflexivity.
  - intros (t & [<-|[]] & E); discriminate E.
Qed.

(** C5 (amended): whenever [Push] returns, its result bounds
    [column_idx + 1], computed in [uint64_t], of every tuple of the batch,
    valid or not, and when the batch has a tuple it is [column_idx + 1] of
    one of them.  When no column index is [2^64 - 1] or more, that is the
    largest column index plus one. *)
Theorem C5_push_returns_max_column (p : SparsePage) (b : AdapterBatch)
    (missing : Float) (nthread : nat) (p' : SparsePage) (r : N) :
  push_batch p b missing nthread = Ok (p', r) ->
  (forall t, In t (tuples b) -> (to_uint64 (column_idx t + 1) <= r)%N) /\
  (tuples b <> [] ->
   exists t, In t (tuples b) /\ (to_uint64 (column_idx t + 1) = r)%N) /\
  ((forall t, In t (tuples b) -> (column_idx t + 1 < 2 ^ 64)%N) ->
   (forall t, In t (tuples b) -> (column_idx t + 1 <= r)%N) /\
   (tuples b <> [] -> exists t, In t (tuples b) /\ (column_idx t + 1 = r)%N)).
Proof.
  intros H; apply push_batch_ok_max in H; subst r.
  split; [|split].
  - apply col_max_upper.
  - apply col_max_attained.
  - intros Hb; split.
    + intros t Ht; rewrite <- (to_uint64_small _ (Hb t Ht)).
      apply col_max_upper, Ht.
    + intros Hne; destruct (col_max_attained _ Hne) as (t & Ht & E).
      exists t; split; [exact Ht|].
      rewrite <- E; symmetry; apply to_uint64_small, Hb, Ht.
Qed.

(** A two-line batch in which only a NaN tuple of column 9 sits above the
    valid ones. *)
Definition batch_nan9 : AdapterBatch :=
  mkBatch true [[mkTuple 0 2 (Fin 1)]; [mkTuple 1 9 NaN; mkTuple 1 0 (Fin 3)]].

Lemma C5_push_returns_max_column_witness :
  push_batch empty_page batch_nan9 (Fin 0) 2
    = Ok (mkPage [0; 1; 2] [mkEntry 2 (Fin 1); mkEntry 0 (Fin 3)] 0, 10%N) /\
  ((forall t, In t (tuples batch_nan9) -> (to_uint64 (column_idx t + 1) <= 10)%N) /\
   (tuples batch_nan9 <> [] ->
    exists t, In t (tuples batch_nan9) /\ (to_uint64 (column_idx t + 1) = 10)%N) /\
   ((forall t, In t (tuples batch_nan9) -> (column_idx t + 1 < 2 ^ 64)%N) ->
    (forall t, In t (tuples batch_nan9) -> (column_idx t + 1 <= 10)%N) /\
    (tuples batch_nan9 <> [] ->
     exists t, In t (tuples batch_nan9) /\ (column_idx t + 1 = 10)%N))).
Proof.
  split; [vm_compute; reflexivity|].
  apply (C5_push_returns_max_column empty_page batch_nan9 (Fin 0) 2
           (mkPage [0; 1; 2] [mkEntry 2 (Fin 1); mkEntry 0 (Fin 3)] 0)).
  vm_compute; reflexivity.
Defined.

(** A page holding one (empty) row, and a batch that writes row 0 again. *)
Definition page_one_row : SparsePage := mkPage [0; 0] [] 0.
Definition batch_row0 : AdapterBatch := mkBatch true [[mkTuple 0 0 (Fin 1)]].

(** An empty page of base row 5, and a batch whose only tuple, a NaN of
    row 4, lies below it. *)
Definition page_base5 : SparsePage := mkPage [0] [] 5.
Definition batch_nan_row4 : AdapterBatch := mkBatch true [[mkTuple 4 0 NaN]].

(** C2 (as stated, refuted): [Push] fails exactly when [missing] is finite
    and some value is infinite.  A batch with only finite values whose row
    lies below the rows the page already holds fails as well, on the
    [CHECK_GE] of the first pass. *)
Lemma C2_push_fails_iff_cex :
  ~ ((exists e, push_batch page_one_row batch_row0 (Fin 0) 1 = Err e) <->
     (isinf (Fin 0) = false /\
      exists t, In t (tuples batch_row0) /\ isinf (value t) = true)).
Proof.
  intros [H _].
  destruct H as [_ (t & [<-|[]] & Hinf)].
  - exists RowBelowBase; vm_compute; reflexivity.
  - discriminate Hinf.
Qed.

(** C2 (amended): with at least one thread, and a batch whose tuples that
    pass the Validity Filter, and (column-major) whose last tuple, do not
    lie below [base_rowid], [Push(batch, missing, nthread)] fails exactly
    when some tuple's key [row_idx - base_rowid], computed in [size_t],
    is below [numRows(P)], or [missing] is finite and some value is
    infinite; with an infinite [missing], infinite values cause no
    failure. *)
Theorem C2_push_fails_iff (p : SparsePage) (b : AdapterBatch)
    (missing : Float) (nthread : nat) :
  0 < nthread ->
  (forall t, In t (tuples b) -> IsValidFunctor missing t = true ->
   (Z.of_nat (base_rowid p) <= Z.of_N (row_idx t))%Z) ->
  (kIsRowMajor b = false -> last (lines b) [] <> [] ->
   (Z.of_nat (base_rowid p)
    <= Z.of_N (row_idx (last (last (lines b) []) default_tuple)))%Z) ->
  ((exists e, push_batch p b missing nthread = Err e) <->
   ((exists t, In t (tuples b) /\
               (to_size_t (Z.of_N (row_idx t) - Z.of_nat (base_rowid p))
                < Z.of_nat (Size p))%Z) \/
    (isinf missing = false /\
     exists t, In t (tuples b) /\ isinf (value t) = true))).
Proof.
  intros Hn Hvalid Hlast.
  destruct (lines b) as [|l ls] eqn:Hl.
  { unfold push_batch; rewrite Hl; unfold tuples; rewrite Hl; simpl.
    split; [intros [e He]; discriminate He|].
    intros [(t & [] & _)|(_ & t & [] & _)]. }
  rewrite push_batch_unfold by (congruence || (destruct (kIsRowMajor b); lia)).
  destruct (negb (kIsRowMajor b) && _) eqn:E0.
  { exfalso; apply andb_true_iff in E0 as [Hc E0]; apply negb_true_iff in Hc.
    rewrite <- Hl in Hlast.
    destruct (last (lines b) []) as [|x xs] eqn:Hll; [discriminate E0|].
    assert (Hx : x :: xs <> []) by discriminate.
    apply Z.ltb_lt in E0; specialize (Hlast Hc Hx); lia. }
  destruct (existsb _ (tuples b)) eqn:E1.
  { split; [intros _|eauto].
    left; apply existsb_exists in E1 as (t & Ht & Hlt).
    exists t; split; [exact Ht|]; apply Z.ltb_lt in Hlt; exact Hlt. }
  destruct (existsb (fun t => IsValidFunctor missing t && _) (tuples b)) eqn:E3.
  { exfalso; apply existsb_exists in E3 as (t & Ht & E3).
    apply andb_true_iff in E3 as [Hv Hw]; apply Z.ltb_lt in Hw.
    specialize (Hvalid t Ht Hv); lia. }
  destruct (negb (isinf missing) && existsb _ (tuples b)) eqn:E2.
  { split; [intros _|eauto].
    right; apply andb_true_iff in E2 as [Hm E2].
    apply negb_true_iff in Hm; split; [exact Hm|].
    apply existsb_exists in E2; exact E2. }
  cbv zeta; destruct (builder_run _ _ _ _ _).
  split; [intros [e He]; discriminate He|].
  intros [(t & Ht & Hlt)|(Hm & t & Ht & Hinf)].
  - assert (Hc : existsb (fun t => (to_size_t (Z.of_N (row_idx t)
                                                - Z.of_nat (base_rowid p))
                                      <? Z.of_nat (Size p))%Z) (tuples b) = true).
    { apply existsb_exists; exists t; split; [exact Ht|]; apply Z.ltb_lt; exact Hlt. }
    congruence.
  - rewrite Hm in E2; simpl in E2.
    assert (Hc : existsb (fun t => isinf (value t)) (tuples b) = true)
      by (apply existsb_exists; eauto).
    congruence.
Qed.

Lemma C2_push_fails_iff_witness :
  push_batch page_base5 batch_nan_row4 (Fin 0) 1 = Ok (mkPage [0; 0] [] 5, 1%N) /\
  ~ (exists e, push_batch page_base5 batch_nan_row4 (Fin 0) 1 = Err e) /\
  (0 < 1 /\
   (forall t, In t (tuples batch_nan_row4) -> IsValidFunctor (Fin 0) t = true ->
    (Z.of_nat (base_rowid page_base5) <= Z.of_N (row_idx t))%Z) /\
   (kIsRowMajor batch_nan_row4 = false -> last (lines batch_nan_row4) [] <> [] ->
    (Z.of_nat (base_rowid page_base5)
     <= Z.of_N (row_idx (last (last (lines batch_nan_row4) []) default_tuple)))%Z) /\
   ((exists e, push_batch page_base5 batch_nan_row4 (Fin 0) 1 = Err e) <->
    ((exists t, In t (tuples batch_nan_row4) /\
                (to_size_t (Z.of_N (row_idx t) - Z.of_nat (base_rowid page_base5))
                 < Z.of_nat (Size page_base5))%Z) \/
     (isinf (Fin 0) = false /\
      exists t, In t (tuples batch_nan_row4) /\ isinf (value t) = true)))).
Proof.
  assert (Hv : forall t, In t (tuples batch_nan_row4) ->
               IsValidFunctor (Fin 0) t = true ->
               (Z.of_nat (base_rowid page_base5) <= Z.of_N (row_idx t))%Z).
  { intros t [<-|[]] Hv; discriminate Hv. }
  assert (Hc : kIsRowMajor batch_nan_row4 = false ->
               last (lines batch_nan_row4) [] <> [] ->
               (Z.of_nat (base_rowid page_base5)
                <= Z.of_N (row_idx (last (last (lines batch_nan_row4) [])
                                      default_tuple)))%Z).
  { intros Hc; discriminate Hc. }
  split; [vm_compute; reflexivity|].
  split; [intros [e He]; vm_compute in He; discriminate He|].
  split; [lia|]; split; [exact Hv|]; split; [exact Hc|].
  exact (C2_push_fails_iff page_base5 batch_nan_row4 (Fin 0) 1
           ltac:(lia) Hv Hc).
Defined.

Lemma placed_concat {A B} (h : A -> B) (v : A -> bool) (S : list (list (list A))) :
  concat (map (fun sl => map h (filter v (concat sl))) S)
  = map h (filter v (concat (concat S))).
Proof.
  induction S as [|sl S IH]; simpl; auto.
  now rewrite concat_app, filter_app, map_app, IH.
Qed.

(** One row pushed into an empty page keeps exactly its valid tuples, in
    order, as entries. *)
Lemma push_one_row_filter (line : list COOTuple) (missing : Float)
    (nthread : nat) :
  0 < nthread -> (forall t, In t line -> row_idx t = 0%N) ->
  (isinf missing = false -> forall t, In t line -> isinf (value t) = false) ->
  exists p' r, push_batch empty_page (mkBatch true [line]) missing nthread
               = Ok (p', r) /\
    rows p' = [map (fun t => mkEntry (to_u32 (column_idx t)) (value t))
                   (filter (IsValidFunctor missing) line)].
Proof.
  intros Hn Hrow Hinf.
  rewrite push_batch_unfold by (simpl; congruence || lia).
  change (kIsRowMajor (mkBatch true [line])) with true; cbn [negb andb].
  unfold tuples; simpl lines; simpl concat; rewrite app_nil_r.
  assert (E1 : existsb (fun t => (to_size_t (Z.of_N (row_idx t) - Z.of_nat 0)
                               <? Z.of_nat (Size empty_page))%Z) line = false).
  { apply not_true_iff_false; intros H; apply existsb_exists in H as (t & Ht & H).
    rewrite (Hrow t Ht) in H; vm_compute in H; discriminate H. }
  assert (E3 : existsb (fun t => IsValidFunctor missing t
                                 && (Z.of_N (row_idx t) <? Z.of_nat 0)%Z) line
               = false).
  { apply not_true_iff_false; intros H; apply existsb_exists in H as (t & Ht & H).
    apply andb_true_iff in H as [_ H].
    rewrite (Hrow t Ht) in H; vm_compute in H; discriminate H. }
  simpl base_rowid; rewrite E1, E3.
  assert (E2 : negb (isinf missing) && existsb (fun t => isinf (value t)) line
               = false).
  { destruct (isinf missing) eqn:Hm; [reflexivity|]; simpl.
    apply not_true_iff_false; intros H; apply existsb_exists in H as (t & Ht & H).
    rewrite (Hinf eq_refl t Ht) in H; discriminate H. }
  rewrite E2; cbv zeta.
  change (kIsRowMajor (mkBatch true [line])) with true; cbv iota.
  change (offset empty_page) with [0]; change (data empty_page) with (@nil Entry).
  change (Size empty_page) with 0; change (length [line]) with 1.
  set (h := fun t => (Z.to_nat (to_size_t (Z.of_N (row_idx t) - Z.of_nat 0)),
                      mkEntry (to_u32 (column_idx t)) (value t))).
  set (placed := map (fun sl => map h (filter (IsValidFunctor missing) (concat sl)))
                     (thread_slices nthread [line])).
  set (g := map (fun t => mkEntry (to_u32 (column_idx t)) (value t))
                (filter (IsValidFunctor missing) line)).
  assert (Hc : concat placed = map h (filter (IsValidFunctor missing) line)).
  { unfold placed; rewrite placed_concat, thread_slices_concat by exact Hn.
    simpl; now rewrite app_nil_r. }
  assert (Hkey : forall r, In r (concat placed) -> fst r = 0).
  { intros r Hr; rewrite Hc in Hr; apply in_map_iff in Hr as (t & <- & Ht).
    apply filter_In in Ht as [Ht _]; unfold h; simpl; rewrite (Hrow t Ht).
    reflexivity. }
  assert (Hslots : builder_slots 0 1 placed = 1).
  { unfold builder_slots; apply fold_max_keys.
    intros r Hr; rewrite (Hkey r Hr); reflexivity. }
  assert (Hg : builder_group 0 placed 0 = g).
  { rewrite builder_group_concat, filter_all.
    - rewrite Hc; unfold g, h; rewrite map_map; reflexivity.
    - intros r Hr; rewrite (Hkey r Hr); reflexivity. }
  change (builder_run [0] [] 0 1 placed) with
    (let groups := map (builder_group 0 placed)
                       (seq 0 (builder_slots 0 1 placed)) in
     let top := last [0] 0 in
     ([0] ++ prefix_from top (map (@length Entry) groups),
      resize default_entry top [] ++ concat groups)).
  rewrite Hslots; simpl seq; cbv zeta; simpl map; rewrite Hg.
  eexists; eexists; split; [reflexivity|].
  unfold rows, row, Size; simpl.
  now rewrite app_nil_r, Nat.sub_0_r, firstn_all.
Qed.

(** The batch of C4: one row, values [1.0, NaN, 0.0, 0.0] at columns
    [0, 1, 2, 3]. *)
Definition batch_c4 : AdapterBatch :=
  mkBatch true [[mkTuple 0 0 (Fin 1); mkTuple 0 1 NaN;
                 mkTuple 0 2 (Fin 0); mkTuple 0 3 (Fin 0)]].

(** C4: pushing [batch_c4] with [missing = 0.0] into an empty page gives
    one row holding exactly the entry [(0, 1.0)]: the NaN and the two
    values equal to the sentinel are dropped (the rule for any one-row
    batch is [push_one_row_filter]). *)
Theorem C4_push_filters_nan_and_missing :
  exists p' r, push_batch empty_page batch_c4 (Fin 0) 1 = Ok (p', r) /\
               rows p' = [[mkEntry 0 (Fin 1)]].
Proof.
  do 2 eexists; split; vm_compute; reflexivity.
Qed.

(** ** C9: [IsIndicesSorted] *)

Lemma to_int32_small (x : Z) : (0 <= x < 2 ^ 31)%Z -> to_int32 x = x.
Proof.
  intros H; unfold to_int32; rewrite Z.mod_small; lia.
Qed.

Lemma to_size_t_small (x : Z) : (0 <= x < 2 ^ 64)%Z -> to_size_t x = x.
Proof. intros H; unfold to_size_t; apply Z.mod_small; lia. Qed.

Lemma to_int32_succ (x : Z) : to_int32 (to_int32 x + 1) = to_int32 (x + 1).
Proof.
  unfold to_int32.
  replace ((x + 2 ^ 31) mod 2 ^ 32 - 2 ^ 31 + 1 + 2 ^ 31)%Z
    with ((x + 2 ^ 31) mod 2 ^ 32 + 1)%Z by lia.
  rewrite Zplus_mod_idemp_l; f_equal; f_equal; lia.
Qed.

Section SortedCount.

Variable p : SparsePage.

Let s (i : nat) : Z := if is_sorted_by CmpIndex (row p i) then 1%Z else 0%Z.

Let zsum (l : list nat) : Z := fold_right (fun i acc => s i + acc)%Z 0%Z l.

Lemma zsum_bounds (l : list nat) : (0 <= zsum l <= Z.of_nat (length l))%Z.
Proof.
  induction l as [|i l IH]; simpl; [lia|].
  unfold s; destruct (is_sorted_by _ _); lia.
Qed.

Lemma zsum_app (l1 l2 : list nat) : zsum (l1 ++ l2) = (zsum l1 + zsum l2)%Z.
Proof. induction l1 as [|i l IH]; simpl; lia. Qed.

Lemma counter_no_overflow (l : list nat) (c : Z) :
  (0 <= c)%Z -> (c + Z.of_nat (length l) < 2 ^ 31)%Z ->
  fold_left (fun c i => to_int32 (c + if is_sorted_by CmpIndex (row p i)
                                     then 1 else 0)) l c
  = (c + zsum l)%Z.
Proof.
  revert c; induction l as [|i l IH]; intros c H0 H1; simpl; [lia|].
  fold (s i).
  assert (Hs : (0 <= s i <= 1)%Z) by (unfold s; destruct (is_sorted_by _ _); lia).
  rewrite to_int32_small by (simpl in H1; lia).
  rewrite IH by (simpl in H1; lia); lia.
Qed.

Lemma sum_no_overflow (cs : list Z) (acc : Z) :
  (0 <= acc)%Z -> Forall (fun c => 0 <= c)%Z cs ->
  (acc + fold_right Z.add 0 cs < 2 ^ 64)%Z ->
  fold_left (fun acc c => to_size_t (acc + to_size_t c)) cs acc
  = (acc + fold_right Z.add 0 cs)%Z.
Proof.
  revert acc; induction cs as [|c cs IH]; intros acc H0 Hc H1; simpl; [lia|].
  inversion Hc as [|? ? Hc0 Hcs]; subst.
  assert (Hcs0 : (0 <= fold_right Z.add 0 cs)%Z).
  { clear -Hcs; induction Hcs; simpl; lia. }
  simpl in H1.
  rewrite (to_size_t_small c), (to_size_t_small (acc + c)) by lia.
  rewrite IH; [lia|lia|exact Hcs|lia].
Qed.

Lemma zsum_all (l : list nat) :
  (zsum l =? Z.of_nat (length l))%Z
  = forallb (fun i => is_sorted_by CmpIndex (row p i)) l.
Proof.
  induction l as [|i l IH]; [reflexivity|].
  change (zsum (i :: l)) with (s i + zsum l)%Z.
  cbn [length forallb].
  pose proof (zsum_bounds l) as Hb.
  unfold s; destruct (is_sorted_by CmpIndex (row p i)); cbv iota beta; cbn [andb].
  - rewrite <- IH; destruct (Z.eqb_spec (zsum l) (Z.of_nat (length l))).
    + apply Z.eqb_eq; lia.
    + apply Z.eqb_neq; lia.
  - apply Z.eqb_neq; lia.
Qed.

End SortedCount.

Lemma length_in_concat {A} (x : list A) (L : list (list A)) :
  In x L -> length x <= length (concat L).
Proof.
  induction L as [|y L IH]; intros H; [destruct H|].
  simpl; rewrite length_app; destruct H as [<-|H]; [lia|].
  specialize (IH H); lia.
Qed.

(** Below [2^31] rows no counter overflows, and [IsIndicesSorted] holds
    exactly when every row is sorted by [CmpIndex]. *)
Lemma IsIndicesSorted_small (p : SparsePage) (n_threads : Z) :
  (Z.of_nat (Size p) < 2 ^ 31)%Z ->
  IsIndicesSorted p n_threads
  = forallb (fun i => is_sorted_by CmpIndex (row p i)) (seq 0 (Size p)).
Proof.
  intros Hsz; unfold IsIndicesSorted.
  set (n := Nat.max _ 1).
  assert (Hn : 0 < n) by (unfold n; lia).
  set (slices := thread_slices n (seq 0 (Size p))).
  assert (Hcat : concat slices = seq 0 (Size p))
    by (apply thread_slices_concat, Hn).
  assert (Hlen : forall sl, In sl slices -> length sl <= Size p).
  { intros sl Hsl; apply length_in_concat in Hsl.
    rewrite Hcat, length_seq in Hsl; exact Hsl. }
  rewrite (map_ext_in _ (fun sl => fold_right (fun i acc => (if is_sorted_by CmpIndex (row p i) then 1 else 0) + acc)%Z 0%Z sl)).
  2:{ intros sl Hsl; rewrite counter_no_overflow; [lia|lia|].
      specialize (Hlen sl Hsl); lia. }
  assert (Hsum : forall L, fold_right Z.add 0%Z
      (map (fun sl => fold_right (fun i acc => (if is_sorted_by CmpIndex (row p i) then 1 else 0) + acc)%Z 0%Z sl) L)
      = fold_right (fun i acc => (if is_sorted_by CmpIndex (row p i) then 1 else 0) + acc)%Z 0%Z (concat L)).
  { induction L as [|sl L IH]; simpl; auto.
    rewrite IH; symmetry; apply zsum_app. }
  rewrite sum_no_overflow; [|lia| |].
  - rewrite Z.add_0_l, Hsum, Hcat.
    rewrite <- (length_seq (Size p) 0) at 2.
    apply zsum_all.
  - apply Forall_forall; intros c Hc; apply in_map_iff in Hc as (sl & <- & _).
    apply zsum_bounds.
  - rewrite Z.add_0_l, Hsum, Hcat.
    pose proof (zsum_bounds p (seq 0 (Size p))) as Hb.
    rewrite length_seq in Hb; lia.
Qed.

(** A page of [m] empty rows. *)
Definition page_empty_rows (m : nat) : SparsePage :=
  mkPage (repeat 0 (S m)) [] 0.

Lemma counter_all_sorted (m : nat) (l : list nat) (c : Z) :
  fold_left (fun c i => to_int32 (c + if is_sorted_by CmpIndex
                                          (row (page_empty_rows m) i)
                                     then 1 else 0)) l (to_int32 c)
  = to_int32 (c + Z.of_nat (length l)).
Proof.
  revert c; induction l as [|i l IH]; intros c; cbn [fold_left length].
  - now rewrite Z.add_0_r.
  - rewrite row_empty_data by reflexivity; cbn [is_sorted_by].
    rewrite to_int32_succ, IH; f_equal; lia.
Qed.

Lemma IsIndicesSorted_empty_rows_one_thread (m : nat) :
  1 <= m ->
  IsIndicesSorted (page_empty_rows m) 1
  = (to_size_t (to_int32 (Z.of_nat m)) =? Z.of_nat m)%Z.
Proof.
  intros Hm.
  assert (Hs : Size (page_empty_rows m) = m).
  { unfold Size, page_empty_rows; simpl; rewrite repeat_length; lia. }
  unfold IsIndicesSorted; rewrite Hs.
  replace (Nat.max (Nat.min (Z.to_nat (to_size_t 1)) m) 1) with 1
    by (change (Z.to_nat (to_size_t 1)) with 1; lia).
  unfold thread_slices; cbn [seq map Nat.eqb Nat.sub Nat.mul skipn].
  change 0%Z with (to_int32 0) at 2.
  rewrite counter_all_sorted, length_seq; cbn [fold_left].
  f_equal.
  unfold to_size_t; rewrite Z.add_0_l, Zmod_mod; reflexivity.
Qed.

(** C9 (failing input): every row of a page of [2^31] empty rows is sorted,
    yet [IsIndicesSorted] with one thread returns false: the [int32_t]
    counter of the single thread wraps to [-2^31]. *)
Theorem C9_is_indices_sorted_counter_overflow :
  (forall i, i < Size (page_empty_rows (2 ^ 31)) ->
   is_sorted_by CmpIndex (row (page_empty_rows (2 ^ 31)) i) = true) /\
  IsIndicesSorted (page_empty_rows (2 ^ 31)) 1 = false.
Proof.
  split.
  - intros i _; rewrite row_empty_data by reflexivity; reflexivity.
  - rewrite IsIndicesSorted_empty_rows_one_thread.
    + rewrite Nat2Z.inj_pow; vm_compute; reflexivity.
    + change 1 with (2 ^ 0); apply Nat.pow_le_mono_r; lia.
Qed.

(** ** C1, C3: the shape invariant and [PushCSC] *)

(** The offsets of a page start at 0, do not decrease and stay within
    [data]. *)
Definition page_wf (p : SparsePage) : Prop :=
  shape_ok p /\ nth 0 (offset p) 0 = 0 /\
  forall i, i < Size p ->
  nth i (offset p) 0 <= nth (S i) (offset p) 0 <= length (data p).

Lemma shape_ok_iff (p : SparsePage) :
  shape_ok p <-> length (data p) = last (offset p) 0 /\ offset p <> [].
Proof.
  unfold shape_ok, Size; destruct (offset p); simpl; split;
    intros [H1 H2]; split; auto; try congruence; lia.
Qed.

Lemma length_insert_by (cmp : Entry -> Entry -> bool) (x : Entry) (l : list Entry) :
  length (insert_by cmp x l) = S (length l).
Proof.
  induction l as [|y l IH]; simpl; auto.
  destruct (cmp y x); simpl; auto.
Qed.

Lemma length_std_sort (cmp : Entry -> Entry -> bool) (l : list Entry) :
  length (std_sort cmp l) = length l.
Proof.
  induction l as [|x l IH]; simpl; auto.
  now rewrite length_insert_by, IH.
Qed.

Lemma length_sort_each_row (cmp : Entry -> Entry -> bool) (p : SparsePage) :
  (forall i, i < Size p ->
   nth i (offset p) 0 <= nth (S i) (offset p) 0 <= length (data p)) ->
  length (data (sort_each_row (std_sort cmp) p)) = length (data p).
Proof.
  intros Hoff; unfold sort_each_row; simpl.
  assert (H : forall l d, length d = length (data p) ->
            (forall i, In i l -> i < Size p) ->
            length (fold_left (fun d i =>
                 firstn (nth i (offset p) 0) d
                 ++ std_sort cmp (firstn (nth (S i) (offset p) 0
                                          - nth i (offset p) 0)
                                         (skipn (nth i (offset p) 0) d))
                 ++ skipn (nth (S i) (offset p) 0) d) l d)
            = length (data p)).
  { induction l as [|i l IH]; intros d Hd Hl; simpl; auto.
    apply IH; [|intros j Hj; apply Hl; now right].
    assert (Hi := Hoff i (Hl i (or_introl eq_refl))).
    rewrite !length_app, length_std_sort, length_firstn, length_firstn,
      !length_skipn; lia. }
  apply H; [reflexivity|].
  intros i Hi; apply in_seq in Hi; lia.
Qed.

Lemma last_app_ne {A} (l1 l2 : list A) (d : A) :
  l2 <> [] -> last (l1 ++ l2) d = last l2 d.
Proof.
  intros Hne; induction l1 as [|x l1 IH]; simpl; auto.
  destruct (l1 ++ l2) eqn:E.
  - destruct l1, l2; simpl in E; congruence.
  - rewrite <- IH; reflexivity.
Qed.

Lemma last_map_add (k : nat) (l : list nat) :
  l <> [] -> last (map (fun o => k + o) l) 0 = k + last l 0.
Proof.
  induction l as [|x l IH]; intros Hne; [congruence|].
  destruct l as [|y l]; [reflexivity|].
  change (last (map (fun o => k + o) (x :: y :: l)) 0)
    with (last (map (fun o => k + o) (y :: l)) 0).
  rewrite IH by discriminate; reflexivity.
Qed.

(** Every mutating operation but [PushCSC] keeps the shape of a
    well-formed page (appending a well-formed page, appending a batch,
    sorting by index or by value, reindexing). *)
Lemma shape_preserved_other_ops (p : SparsePage) :
  page_wf p ->
  (forall b, page_wf b -> shape_ok (push_page p b)) /\
  (forall b missing nthread p' r,
     push_batch p b missing nthread = Ok (p', r) -> shape_ok p') /\
  shape_ok (SortIndices p) /\ shape_ok (SortRows p) /\
  (forall feature_offset, shape_ok (Reindex p feature_offset)).
Proof.
  intros (Hshape & H0 & Hoff).
  pose proof (proj1 (shape_ok_iff p) Hshape) as [Hd Hne].
  split; [|split; [|split; [|split]]].
  - intros b ((Hbd & _) & Hb0 & _).
    rewrite push_page_eq by exact Hd.
    apply shape_ok_iff; simpl; split.
    + rewrite length_app, Hd, Hbd.
      destruct (offset b) as [|o os]; cbn [tl map] in *.
      { rewrite app_nil_r; simpl; lia. }
      destruct os as [|o' os].
      { cbn [map]; rewrite app_nil_r; simpl in Hb0 |- *; lia. }
      change (last (o :: o' :: os) 0) with (last (o' :: os) 0).
      rewrite last_app_ne, last_map_add by discriminate.
      reflexivity.
    + destruct (offset p); [congruence|discriminate].
  - intros b missing nthread p' r H.
    destruct (lines b) as [|l ls] eqn:Hl.
    { unfold push_batch in H; rewrite Hl in H; simpl in H.
      injection H as <- _; exact Hshape. }
    destruct (Nat.eq_dec (if kIsRowMajor b then nthread else 1) 0) as [Hn|Hn].
    { unfold push_batch in H; cbv zeta in H; rewrite Hl, Hn in H.
      discriminate H. }
    rewrite push_batch_unfold in H by (congruence || lia).
    destruct (negb _ && _); [discriminate|].
    destruct (existsb _ _); [discriminate|].
    destruct (existsb _ _); [discriminate|].
    destruct (negb _ && _); [discriminate|].
    cbv zeta in H.
    match type of H with
    | context [builder_run ?o ?d ?bs ?mk ?th] =>
        pose proof (builder_run_shape o d bs mk th) as Hrun;
        destruct (builder_run o d bs mk th) as [off dat]
    end.
    injection H as <- _.
    destruct Hrun as [Hl1 Hl2].
    apply shape_ok_iff; simpl; split; [exact Hl1|].
    intros E; rewrite E in Hl2; destruct (offset p); simpl in Hl2;
      [congruence|discriminate].
  - apply shape_ok_iff; split; [|exact Hne].
    unfold SortIndices; rewrite length_sort_each_row by exact Hoff.
    exact Hd.
  - apply shape_ok_iff; split; [|exact Hne].
    unfold SortRows; rewrite length_sort_each_row by exact Hoff.
    exact Hd.
  - intros fo; apply shape_ok_iff; split; [|exact Hne].
    simpl; rewrite length_map; exact Hd.
Qed.

(** A CSC page with one column holding one entry, and a page of the same
    width with no entries. *)
Definition csc_page : SparsePage := mkPage [0; 1] [mkEntry 0 (Fin 1)] 0.

Definition csc_empty_other : SparsePage := mkPage [0; 0] [] 0.

Lemma csc_inputs_wf : page_wf csc_page /\ page_wf csc_empty_other.
Proof.
  unfold page_wf, shape_ok, Size; simpl.
  split; repeat match goal with
  | |- _ /\ _ => split
  | |- forall j, _ => let j := fresh "j" in intros j ?; destruct j; simpl; lia
  | _ => reflexivity
  end.
Qed.

(** C1 (code bug): the shape invariant does not survive [PushCSC].
    Merging the well-formed page [csc_page] (one entry) with the
    well-formed, entry-free page [csc_empty_other] succeeds but leaves a
    page whose offsets end at 0 while its data still holds one entry. *)
Theorem C1_push_csc_breaks_shape :
  page_wf csc_page /\ page_wf csc_empty_other /\
  exists P', push_csc csc_page csc_empty_other = Some P' /\ ~ shape_ok P'.
Proof.
  destruct csc_inputs_wf as [H1 H2].
  split; [exact H1|split; [exact H2|]].
  eexists; split; [reflexivity|].
  intros [Hd _]; simpl in Hd; discriminate Hd.
Qed.

(** C3 (code bug): when the other page has no entries, [PushCSC] keeps
    this page's data but replaces its offsets by the other page's, even
    though this page is not empty: [csc_page]'s offsets [[0; 1]] become
    [[0; 0]]. *)
Theorem C3_push_csc_empty_other_overwrites_offsets :
  data csc_page <> [] /\
  exists P', push_csc csc_page csc_empty_other = Some P' /\
    offset P' = offset csc_empty_other /\ offset P' <> offset csc_page /\
    data P' = data csc_page.
Proof.
  split; [discriminate|].
  eexists; split; [reflexivity|]; simpl.
  split; [reflexivity|split; [discriminate|reflexivity]].
Qed.

(** ** Rows of the page operations *)

(** Positions [b .. e) of a vector. *)
Definition slice {A} (l : list A) (b e : nat) : list A :=
  firstn (e - b) (skipn b l).

Lemma row_slice (p : SparsePage) (i : nat) :
  row p i = slice (data p) (nth i (offset p) 0) (nth (S i) (offset p) 0).
Proof. reflexivity. Qed.

Lemma slice_app_l {A} (l1 l2 : list A) (b e : nat) :
  e <= length l1 -> slice (l1 ++ l2) b e = slice l1 b e.
Proof.
  intros He; unfold slice; rewrite skipn_app, firstn_app, length_skipn.
  replace (e - b - (length l1 - b)) with 0 by lia.
  simpl; apply app_nil_r.
Qed.

Lemma slice_app_r {A} (l1 l2 : list A) (b e : nat) :
  slice (l1 ++ l2) (length l1 + b) (length l1 + e) = slice l2 b e.
Proof.
  unfold slice; rewrite skipn_app, skipn_all2 by lia; simpl.
  f_equal; [lia|f_equal; lia].
Qed.

Lemma slice_firstn {A} (l : list A) (n b e : nat) :
  e <= n -> slice (firstn n l) b e = slice l b e.
Proof.
  intros He; unfold slice.
  rewrite skipn_firstn_comm, firstn_firstn; f_equal; lia.
Qed.

Lemma slice_prefix {A} (l : list A) (e : nat) :
  e <= length l -> slice l 0 e = firstn e l.
Proof. intros _; unfold slice; rewrite Nat.sub_0_r; reflexivity. Qed.

Lemma nth_last_eq {A} (l : list A) (d : A) :
  nth (length l - 1) l d = last l d.
Proof.
  induction l as [|x l IH]; [reflexivity|].
  destruct l as [|y l]; [reflexivity|].
  change (last (x :: y :: l) d) with (last (y :: l) d).
  rewrite <- IH; simpl; rewrite Nat.sub_0_r; reflexivity.
Qed.

Lemma map_seq_shift {A} (f : nat -> A) (s n : nat) :
  map f (seq s n) = map (fun j => f (s + j)) (seq 0 n).
Proof.
  revert f s; induction n as [|n IH]; intros f s; [reflexivity|].
  simpl; rewrite Nat.add_0_r; f_equal.
  rewrite (IH f (S s)), (IH (fun j => f (s + j)) 1).
  apply map_ext; intros j; f_equal; lia.
Qed.

(** Offsets of a well-formed page never decrease. *)
Lemma wf_offset_mono (p : SparsePage) :
  page_wf p -> forall i j, i <= j <= Size p ->
  nth i (offset p) 0 <= nth j (offset p) 0.
Proof.
  intros (_ & _ & Hm) i j Hij.
  induction j as [|j IH].
  - replace i with 0 by lia; lia.
  - destruct (Nat.eq_dec i (S j)) as [->|Hne]; [lia|].
    specialize (Hm j ltac:(lia)); specialize (IH ltac:(lia)); lia.
Qed.

Lemma wf_offset_le_data (p : SparsePage) :
  page_wf p -> forall i, i <= Size p -> nth i (offset p) 0 <= length (data p).
Proof.
  intros Hw i Hi; pose proof Hw as (Hs & _ & _).
  apply shape_ok_iff in Hs as [Hd Hne].
  rewrite Hd, <- nth_last_eq.
  apply wf_offset_mono; [exact Hw|]; unfold Size in *; lia.
Qed.

Lemma length_row (p : SparsePage) (i : nat) :
  page_wf p -> i < Size p ->
  length (row p i) = nth (S i) (offset p) 0 - nth i (offset p) 0.
Proof.
  intros Hw Hi; unfold row.
  pose proof (wf_offset_le_data p Hw (S i) Hi).
  rewrite length_firstn, length_skipn; lia.
Qed.

(** The offsets after [Push(other)]: this page's offsets, then the other
    page's offsets shifted by the former last offset. *)
Lemma push_page_offset_nth (p b : SparsePage) (j : nat) :
  page_wf p -> page_wf b -> j <= Size b ->
  nth (Size p + j) (offset p ++ map (fun o => last (offset p) 0 + o)
                                     (tl (offset b))) 0
  = last (offset p) 0 + nth j (offset b) 0.
Proof.
  intros (Hsp & _ & _) (Hsb & Hb0 & _) Hj.
  apply shape_ok_iff in Hsp as [_ Hne].
  assert (Hl : length (offset p) = Size p + 1)
    by (unfold Size; destruct (offset p); [congruence|simpl; lia]).
  destruct j as [|j].
  - rewrite app_nth1 by lia; rewrite Nat.add_0_r, Hb0, Nat.add_0_r.
    replace (Size p) with (length (offset p) - 1) by lia.
    apply nth_last_eq.
  - rewrite app_nth2 by lia.
    replace (Size p + S j - length (offset p)) with j by lia.
    unfold Size in Hj; destruct (offset b) as [|o os]; simpl in Hj |- *; [lia|].
    rewrite nth_indep with (d' := last (offset p) 0 + 0)
      by (rewrite length_map; lia).
    rewrite map_nth; reflexivity.
Qed.

Lemma push_page_offset_nth_l (p b : SparsePage) (i : nat) :
  page_wf p -> i <= Size p ->
  nth i (offset p ++ map (fun o => last (offset p) 0 + o)
                         (tl (offset b))) 0
  = nth i (offset p) 0.
Proof.
  intros (Hsp & _ & _) Hi; apply shape_ok_iff in Hsp as [_ Hne].
  apply app_nth1; unfold Size in Hi; destruct (offset p); [congruence|simpl in *; lia].
Qed.

Lemma length_push_page_offset (p b : SparsePage) :
  page_wf p -> page_wf b ->
  length (offset p ++ map (fun o => last (offset p) 0 + o) (tl (offset b)))
  = Size p + Size b + 1.
Proof.
  intros (Hsp & _ & _) (Hsb & _ & _).
  apply shape_ok_iff in Hsp as [_ Hp]; apply shape_ok_iff in Hsb as [_ Hb].
  rewrite length_app, length_map; unfold Size.
  destruct (offset p), (offset b); try congruence; simpl; lia.
Qed.

(** [Push(other)] on two well-formed pages: the result is well formed, its
    rows are this page's rows followed by the other page's rows, and it
    keeps [base_rowid]. *)
Theorem push_page_rows (p b : SparsePage) :
  page_wf p -> page_wf b ->
  page_wf (push_page p b) /\
  Size (push_page p b) = Size p + Size b /\
  rows (push_page p b) = rows p ++ rows b /\
  base_rowid (push_page p b) = base_rowid p.
Proof.
  intros Hp Hb.
  pose proof Hp as (Hsp & Hp0 & Hpm); pose proof Hb as (Hsb & Hb0 & Hbm).
  pose proof (proj1 (shape_ok_iff p) Hsp) as [Hd Hne].
  pose proof (proj1 (shape_ok_iff b) Hsb) as [Hbd Hbne].
  rewrite push_page_eq by exact Hd.
  set (O := offset p ++ map (fun o => last (offset p) 0 + o) (tl (offset b))).
  assert (HS : Size (mkPage O (data p ++ data b) (base_rowid p)) = Size p + Size b).
  { unfold Size at 1; simpl; unfold O; rewrite length_push_page_offset by assumption; lia. }
  assert (Hl : forall i, i <= Size p -> nth i O 0 = nth i (offset p) 0)
    by (intros i Hi; apply push_page_offset_nth_l; assumption).
  assert (Hr : forall j, j <= Size b ->
            nth (Size p + j) O 0 = length (data p) + nth j (offset b) 0)
    by (intros j Hj; rewrite Hd; apply push_page_offset_nth; assumption).
  assert (HrowL : forall i, i < Size p ->
            row (mkPage O (data p ++ data b) (base_rowid p)) i = row p i).
  { intros i Hi; rewrite !row_slice; simpl.
    rewrite (Hl i), (Hl (S i)) by lia.
    apply slice_app_l, wf_offset_le_data; [exact Hp|lia]. }
  assert (HrowR : forall j, j < Size b ->
            row (mkPage O (data p ++ data b) (base_rowid p)) (Size p + j)
            = row b j).
  { intros j Hj; rewrite !row_slice; simpl.
    rewrite (Hr j), <- Nat.add_succ_r, (Hr (S j)) by lia.
    apply slice_app_r. }
  split; [|split; [exact HS|split; [|reflexivity]]].
  - split; [|split].
    + apply shape_ok_iff; simpl; split.
      * rewrite length_app, Hbd.
        replace (last O 0) with (nth (Size p + Size b) O 0).
        2:{ rewrite <- nth_last_eq; f_equal; unfold O;
            rewrite length_push_page_offset by assumption; lia. }
        rewrite Hr by lia; rewrite <- nth_last_eq; reflexivity.
      * unfold O; destruct (offset p); [congruence|discriminate].
    + simpl; rewrite Hl by lia; exact Hp0.
    + intros i Hi; rewrite HS in Hi; simpl; rewrite length_app.
      destruct (Nat.lt_ge_cases i (Size p)) as [Hi'|Hi'].
      * rewrite (Hl i), (Hl (S i)) by lia.
        specialize (Hpm i Hi'); lia.
      * replace i with (Size p + (i - Size p)) by lia.
        rewrite <- Nat.add_succ_r, (Hr (i - Size p)), (Hr (S (i - Size p))) by lia.
        specialize (Hbm (i - Size p) ltac:(lia)); lia.
  - unfold rows; rewrite HS, seq_app, map_app; f_equal.
    + apply map_ext_in; intros i Hi; apply in_seq in Hi; apply HrowL; lia.
    + rewrite map_seq_shift; simpl.
      apply map_ext_in; intros j Hj; apply in_seq in Hj; apply HrowR; lia.
Qed.

(** A page built from its rows: offsets the running sums of the row
    lengths, data the rows one after the other. *)
Definition page_of_rows (gs : list (list Entry)) (b : nat) : SparsePage :=
  mkPage (0 :: prefix_from 0 (map (@length Entry) gs)) (concat gs) b.

Lemma nth_prefix_from (cs : list nat) :
  forall a i, i <= length cs ->
  nth i (a :: prefix_from a cs) 0 = a + list_sum (firstn i cs).
Proof.
  induction cs as [|c cs IH]; intros a i Hi.
  - destruct i; simpl in *; [lia|lia].
  - destruct i as [|i]; [simpl; lia|].
    change (nth (S i) (a :: prefix_from a (c :: cs)) 0)
      with (nth i ((a + c) :: prefix_from (a + c) cs) 0).
    simpl in Hi; rewrite IH by lia; simpl; lia.
Qed.

Lemma list_sum_firstn_S (cs : list nat) (i : nat) :
  list_sum (firstn i cs) <= list_sum (firstn (S i) cs) <= list_sum cs.
Proof.
  revert i; induction cs as [|c cs IH]; intros i; [destruct i; simpl; lia|].
  destruct i as [|i]; simpl.
  - pose proof (IH 0); simpl in *; lia.
  - specialize (IH i); simpl in IH; lia.
Qed.

Lemma page_of_rows_wf (gs : list (list Entry)) (b : nat) :
  page_wf (page_of_rows gs b) /\ Size (page_of_rows gs b) = length gs /\
  forall i, i < length gs -> row (page_of_rows gs b) i = nth i gs [].
Proof.
  assert (HS : Size (page_of_rows gs b) = length gs)
    by (unfold Size, page_of_rows; simpl; rewrite length_prefix_from, length_map; lia).
  split; [|split; [exact HS|]].
  - split; [|split; [reflexivity|]].
    + apply shape_ok_iff; unfold page_of_rows; cbn [offset data]; split; [|discriminate].
      rewrite length_concat.
      change (0 :: prefix_from 0 (map (@length Entry) gs))
        with ([0] ++ prefix_from 0 (map (@length Entry) gs)).
      rewrite last_app_prefix_from by reflexivity; reflexivity.
    + rewrite HS; intros i Hi; unfold page_of_rows; simpl offset; simpl data.
      rewrite length_concat.
      rewrite !nth_prefix_from by (rewrite length_map; lia).
      apply list_sum_firstn_S.
  - intros i Hi; unfold page_of_rows.
    change (concat gs) with ([] ++ concat gs); apply row_built; auto.
Qed.

(** The per-feature loop of [PushCSC] on two well-formed pages of the same
    width: from feature [k] on, it writes each feature's two slices one
    after the other, the running offset being the sum of the two pages'
    offsets. *)
Lemma csc_loop_spec (p b : SparsePage) :
  page_wf p -> page_wf b -> Size p = Size b ->
  forall m k, k + m <= Size b ->
  let gs := map (fun i => row p i ++ row b i) (seq k m) in
  let beg := nth k (offset p) 0 + nth k (offset b) 0 in
  csc_loop (offset p) (data p) (offset b) (data b)
           (length (data p) + length (data b)) (seq k m) beg
  = Some (prefix_from beg (map (@length Entry) gs), concat gs).
Proof.
  intros Hp Hb Hsz m; induction m as [|m IH]; intros k Hk gs beg; [reflexivity|].
  pose proof Hp as (_ & _ & Hpm); pose proof Hb as (_ & _ & Hbm).
  specialize (Hpm k ltac:(lia)); specialize (Hbm k ltac:(lia)).
  subst gs beg; cbn [seq map csc_loop].
  destruct (Nat.ltb_spec (length (data p) + length (data b))
              (nth k (offset p) 0 + nth k (offset b) 0)); [lia|].
  destruct (Nat.ltb_spec (length (data p) + length (data b))
              (nth k (offset p) 0 + nth k (offset b) 0
               + (nth (S k) (offset p) 0 - nth k (offset p) 0))); [lia|].
  replace (nth k (offset p) 0 + nth k (offset b) 0
           + (nth (S k) (offset p) 0 - nth k (offset p) 0)
           + (nth (S k) (offset b) 0 - nth k (offset b) 0))
    with (nth (S k) (offset p) 0 + nth (S k) (offset b) 0) by lia.
  rewrite (IH (S k)) by lia.
  cbn [prefix_from concat].
  rewrite length_app, length_row, length_row by (assumption || lia).
  replace (nth k (offset p) 0 + nth k (offset b) 0
           + (nth (S k) (offset p) 0 - nth k (offset p) 0
              + (nth (S k) (offset b) 0 - nth k (offset b) 0)))
    with (nth (S k) (offset p) 0 + nth (S k) (offset b) 0) by lia.
  rewrite app_assoc; reflexivity.
Qed.

(** [PushCSC] on two well-formed pages that both hold entries: it fails
    its size check when their offset arrays differ in length; otherwise it
    succeeds with a well-formed page of the same width whose column [j] is
    this page's column [j] followed by the other page's column [j]. *)
Theorem push_csc_merge (p b : SparsePage) :
  page_wf p -> page_wf b -> data p <> [] -> data b <> [] ->
  (length (offset p) <> length (offset b) -> push_csc p b = None) /\
  (length (offset p) = length (offset b) ->
   exists P', push_csc p b = Some P' /\ page_wf P' /\ Size P' = Size b /\
     base_rowid P' = base_rowid p /\
     forall j, j < Size b -> row P' j = row p j ++ row b j).
Proof.
  intros Hp Hb Hdp Hdb.
  unfold push_csc.
  destruct (data b) as [|y ys] eqn:Edb; [congruence|].
  destruct (data p) as [|x xs] eqn:Edp; [congruence|].
  split.
  - intros Hne; apply Nat.eqb_neq in Hne; rewrite Hne; reflexivity.
  - intros Heq; rewrite (proj2 (Nat.eqb_eq _ _) Heq); cbn [negb].
    assert (Hsz : Size p = Size b) by (unfold Size; lia).
    pose proof (csc_loop_spec p b Hp Hb Hsz (Size b) 0 ltac:(lia)) as Hl.
    cbv zeta in Hl.
    pose proof Hp as (_ & Hp0 & _); pose proof Hb as (_ & Hb0 & _).
    rewrite Hp0, Hb0, Edp, Edb in Hl; cbn [Nat.add] in Hl.
    change (length (offset b) - 1) with (Size b).
    rewrite Hl.
    set (gs := map (fun i => row p i ++ row b i) (seq 0 (Size b))).
    assert (Hgs : length gs = Size b) by (unfold gs; rewrite length_map, length_seq; lia).
    assert (Hlen : length (concat gs) = length (x :: xs) + length (y :: ys)).
    { pose proof (proj1 (page_of_rows_wf gs (base_rowid p))) as (Hs & _ & _).
      apply shape_ok_iff in Hs as [Hs _]; unfold page_of_rows in Hs; simpl offset in Hs.
      cbn [data] in Hs; rewrite Hs.
      change (0 :: prefix_from 0 (map (@length Entry) gs))
        with ([0] ++ prefix_from 0 (map (@length Entry) gs)).
      rewrite last_app_prefix_from by reflexivity.
      rewrite <- Edp, <- Edb; unfold gs; rewrite map_map.
      rewrite (map_ext_in _ (fun i => (nth (S i) (offset p) 0 - nth i (offset p) 0)
                                     + (nth (S i) (offset b) 0 - nth i (offset b) 0))).
      2:{ intros i Hi; apply in_seq in Hi.
          rewrite length_app, !length_row by (assumption || lia); reflexivity. }
      pose proof (proj1 (shape_ok_iff p) (proj1 Hp)) as [Hdp' _].
      pose proof (proj1 (shape_ok_iff b) (proj1 Hb)) as [Hdb' _].
      rewrite Hdp', Hdb', <- !nth_last_eq.
      change (length (offset p) - 1) with (Size p).
      change (length (offset b) - 1) with (Size b).
      pose proof (wf_offset_mono p Hp) as Mp; pose proof (wf_offset_mono b Hb) as Mb.
      assert (Hsum : forall n, n <= Size b ->
        list_sum (map (fun i => nth (S i) (offset p) 0 - nth i (offset p) 0
                                + (nth (S i) (offset b) 0 - nth i (offset b) 0))
                      (seq 0 n))
        = nth n (offset p) 0 + nth n (offset b) 0).
      { induction n as [|n IHn]; intros Hn; [simpl; lia|].
        rewrite seq_S, map_app, list_sum_app, IHn by lia; simpl.
        specialize (Mp n (S n) ltac:(lia)); specialize (Mb n (S n) ltac:(lia)); lia. }
      rewrite Hsz; apply Hsum; lia. }
    unfold resize; rewrite firstn_all2 by lia.
    replace (length (x :: xs) + length (y :: ys) - length (concat gs)) with 0 by lia.
    rewrite app_nil_r.
    pose proof (page_of_rows_wf gs (base_rowid p)) as (Hw & HS & Hr).
    exists (page_of_rows gs (base_rowid p)).
    split; [reflexivity|split; [exact Hw|split; [lia|split; [reflexivity|]]]].
    intros j Hj; rewrite Hr by lia.
    unfold gs; rewrite nth_map_seq by lia; reflexivity.
Qed.

(** Replacing positions [b .. e) of a vector leaves the slices before and
    after them alone. *)
Lemma slice_replace {A} (d s : list A) (b e x y : nat) :
  b <= e <= length d -> length s = e - b ->
  (y <= b -> slice (firstn b d ++ s ++ skipn e d) x y = slice d x y) /\
  (e <= x <= y -> slice (firstn b d ++ s ++ skipn e d) x y = slice d x y) /\
  slice (firstn b d ++ s ++ skipn e d) b e = s.
Proof.
  intros Hbe Hs.
  assert (Hfb : length (firstn b d) = b) by (rewrite length_firstn; lia).
  split; [|split].
  - intros Hy; rewrite slice_app_l by lia; apply slice_firstn; exact Hy.
  - intros Hx; rewrite app_assoc.
    assert (Hpre : length (firstn b d ++ s) = e) by (rewrite length_app; lia).
    transitivity (slice ((firstn b d ++ s) ++ skipn e d)
                        (length (firstn b d ++ s) + (x - e))
                        (length (firstn b d ++ s) + (y - e)));
      [f_equal; lia|].
    rewrite slice_app_r; unfold slice.
    rewrite skipn_skipn; f_equal; [lia|f_equal; lia].
  - replace b with (length (firstn b d) + 0) at 2 by lia.
    replace e with (length (firstn b d) + (e - b)) at 2 by lia.
    rewrite slice_app_r, slice_prefix by (rewrite length_app; lia).
    rewrite firstn_app, <- Hs, firstn_all, Nat.sub_diag; simpl; apply app_nil_r.
Qed.

Section SortEachRow.

Variable sortf : list Entry -> list Entry.
Hypothesis length_sortf : forall l, length (sortf l) = length l.
Variable p : SparsePage.
Hypothesis Hwf : page_wf p.

Let o (i : nat) : nat := nth i (offset p) 0.

Let step (d : list Entry) (i : nat) : list Entry :=
  firstn (nth i (offset p) 0) d
  ++ sortf (firstn (nth (S i) (offset p) 0 - nth i (offset p) 0)
                   (skipn (nth i (offset p) 0) d))
  ++ skipn (nth (S i) (offset p) 0) d.

Lemma step_slices (d : list Entry) (j : nat) :
  length d = length (data p) -> j < Size p ->
  length (step d j) = length d /\
  forall i, i < Size p ->
  slice (step d j) (o i) (o (S i))
  = if Nat.eq_dec i j then sortf (slice d (o i) (o (S i)))
    else slice d (o i) (o (S i)).
Proof.
  intros Hd Hj.
  pose proof (wf_offset_mono p Hwf) as Mo.
  pose proof (wf_offset_le_data p Hwf) as Mle.
  assert (Hbe : o j <= o (S j) <= length d)
    by (unfold o; split; [apply Mo; lia|rewrite Hd; apply Mle; lia]).
  assert (Hs : length (sortf (slice d (o j) (o (S j)))) = o (S j) - o j).
  { rewrite length_sortf; unfold slice; rewrite length_firstn, length_skipn; lia. }
  pose proof (fun x y => slice_replace d (sortf (slice d (o j) (o (S j))))
                                       (o j) (o (S j)) x y Hbe Hs) as R.
  fold (slice d (o j) (o (S j))) in R.
  split.
  - unfold step; fold (o j) (o (S j)); fold (slice d (o j) (o (S j))).
    rewrite !length_app, length_firstn, Hs, length_skipn; lia.
  - intros i Hi; unfold step; fold (o j) (o (S j)); fold (slice d (o j) (o (S j))).
    destruct (Nat.eq_dec i j) as [->|Hne]; [apply (proj2 (proj2 (R 0 0)))|].
    destruct (Nat.lt_ge_cases i j).
    + apply (proj1 (R (o i) (o (S i)))); unfold o; apply Mo; lia.
    + apply (proj1 (proj2 (R (o i) (o (S i))))); unfold o; split; apply Mo; lia.
Qed.

Lemma fold_step_slices (l : list nat) :
  forall d, length d = length (data p) -> NoDup l ->
  (forall i, In i l -> i < Size p) ->
  forall i, i < Size p ->
  slice (fold_left step l d) (o i) (o (S i))
  = if in_dec Nat.eq_dec i l then sortf (slice d (o i) (o (S i)))
    else slice d (o i) (o (S i)).
Proof.
  induction l as [|j l IH]; intros d Hd Hnd Hl i Hi; [reflexivity|].
  inversion Hnd as [|? ? Hjl Hnd']; subst.
  pose proof (step_slices d j Hd (Hl j (or_introl eq_refl))) as [Hlen Hsl].
  cbn [fold_left]; rewrite IH; [| lia | exact Hnd' | intros k Hk; apply Hl; now right | exact Hi].
  rewrite Hsl by exact Hi.
  destruct (Nat.eq_dec i j) as [->|Hne].
  - destruct (in_dec Nat.eq_dec j l) as [Hin|_]; [contradiction|].
    destruct (in_dec Nat.eq_dec j (j :: l)) as [_|Hn]; [reflexivity|].
    exfalso; apply Hn; now left.
  - destruct (in_dec Nat.eq_dec i l) as [Hin|Hnin];
      destruct (in_dec Nat.eq_dec i (j :: l)) as [Hin'|Hnin']; auto.
    + exfalso; apply Hnin'; now right.
    + destruct Hin' as [->|Hin']; [congruence|contradiction].
Qed.

(** Sorting each row sorts every row in place. *)
Lemma sort_each_row_row (i : nat) :
  i < Size p -> row (sort_each_row sortf p) i = sortf (row p i).
Proof.
  intros Hi; rewrite !row_slice; unfold sort_each_row; cbn [offset data].
  change (nth i (offset p) 0) with (o i); change (nth (S i) (offset p) 0) with (o (S i)).
  change (fold_left _ (seq 0 (Size p)) (data p))
    with (fold_left step (seq 0 (Size p)) (data p)).
  rewrite fold_step_slices; [| reflexivity | apply seq_NoDup
    | intros k Hk; apply in_seq in Hk; lia | exact Hi].
  destruct (in_dec Nat.eq_dec i (seq 0 (Size p))) as [_|Hn]; [reflexivity|].
  exfalso; apply Hn, in_seq; lia.
Qed.

End SortEachRow.

Lemma insert_by_perm (cmp : Entry -> Entry -> bool) (x : Entry) (l : list Entry) :
  Permutation (insert_by cmp x l) (x :: l).
Proof.
  induction l as [|y l IH]; simpl; [auto|].
  destruct (cmp y x); [|auto].
  eapply perm_trans; [apply perm_skip, IH|apply perm_swap].
Qed.

Lemma std_sort_perm (cmp : Entry -> Entry -> bool) (l : list Entry) :
  Permutation (std_sort cmp l) l.
Proof.
  induction l as [|x l IH]; simpl; [auto|].
  eapply perm_trans; [apply insert_by_perm|now apply perm_skip].
Qed.

Lemma is_sorted_by_cons (cmp : Entry -> Entry -> bool) (y : Entry) (l : list Entry) :
  is_sorted_by cmp (y :: l)
  = (match l with [] => true | z :: _ => negb (cmp z y) end)
    && is_sorted_by cmp l.
Proof. destruct l; reflexivity. Qed.

Lemma insert_by_sorted (cmp : Entry -> Entry -> bool)
    (asym : forall a b, cmp a b = true -> cmp b a = false)
    (x : Entry) (l : list Entry) :
  is_sorted_by cmp l = true -> is_sorted_by cmp (insert_by cmp x l) = true.
Proof.
  induction l as [|y l IH]; intros Hs; [reflexivity|].
  rewrite is_sorted_by_cons in Hs; apply andb_prop in Hs as [Hh Ht].
  cbn [insert_by]; destruct (cmp y x) eqn:Eyx.
  - rewrite is_sorted_by_cons, IH by exact Ht; rewrite andb_true_r.
    destruct l as [|z l]; cbn [insert_by].
    + now rewrite (asym _ _ Eyx).
    + destruct (cmp z x); [exact Hh|now rewrite (asym _ _ Eyx)].
  - rewrite is_sorted_by_cons, Eyx; cbn [negb andb].
    rewrite is_sorted_by_cons, Hh; exact Ht.
Qed.

Lemma std_sort_sorted (cmp : Entry -> Entry -> bool)
    (asym : forall a b, cmp a b = true -> cmp b a = false) (l : list Entry) :
  is_sorted_by cmp (std_sort cmp l) = true.
Proof.
  induction l as [|x l IH]; [reflexivity|].
  apply insert_by_sorted; assumption.
Qed.

Lemma CmpIndex_asym (a b : Entry) : CmpIndex a b = true -> CmpIndex b a = false.
Proof.
  unfold CmpIndex; intros H; apply N.ltb_lt in H; apply N.ltb_ge; lia.
Qed.

Lemma CmpValue_asym (a b : Entry) : CmpValue a b = true -> CmpValue b a = false.
Proof.
  unfold CmpValue, float_lt.
  destruct (fvalue a) as [qa| | |], (fvalue b) as [qb| | |]; try discriminate; auto.
  intros H; apply negb_true_iff in H; apply negb_false_iff.
  apply Qle_bool_iff.
  destruct (Qlt_le_dec qa qb) as [Hl|Hl]; [now apply Qlt_le_weak|].
  apply Qle_bool_iff in Hl; congruence.
Qed.

Lemma sort_each_row_std_sort (cmp : Entry -> Entry -> bool)
    (asym : forall a b, cmp a b = true -> cmp b a = false) (p : SparsePage) :
  page_wf p ->
  page_wf (sort_each_row (std_sort cmp) p) /\
  offset (sort_each_row (std_sort cmp) p) = offset p /\
  base_rowid (sort_each_row (std_sort cmp) p) = base_rowid p /\
  forall i, i < Size p ->
  Permutation (row (sort_each_row (std_sort cmp) p) i) (row p i) /\
  is_sorted_by cmp (row (sort_each_row (std_sort cmp) p) i) = true.
Proof.
  intros Hw; pose proof Hw as (Hs & H0 & Hm).
  pose proof (proj1 (shape_ok_iff p) Hs) as [Hd Hne].
  assert (Hlen := length_sort_each_row cmp p Hm).
  split; [|split; [reflexivity|split; [reflexivity|]]].
  - split; [|split; [exact H0|]].
    + apply shape_ok_iff; split; [rewrite Hlen; exact Hd|exact Hne].
    + intros i Hi; rewrite Hlen; apply Hm, Hi.
  - intros i Hi.
    rewrite (sort_each_row_row (std_sort cmp) (length_std_sort cmp) p Hw i Hi).
    split; [apply std_sort_perm|apply std_sort_sorted, asym].
Qed.

(** [SortIndices] on a well-formed page keeps its offsets and
    [base_rowid] and the page well formed, and turns every row into a
    permutation of itself that is sorted by [CmpIndex]. *)
Theorem SortIndices_sorts_rows (p : SparsePage) :
  page_wf p ->
  page_wf (SortIndices p) /\ offset (SortIndices p) = offset p /\
  base_rowid (SortIndices p) = base_rowid p /\
  forall i, i < Size p ->
  Permutation (row (SortIndices p) i) (row p i) /\
  is_sorted_by CmpIndex (row (SortIndices p) i) = true.
Proof. apply sort_each_row_std_sort, CmpIndex_asym. Qed.

(** After [SortIndices], [IsIndicesSorted] returns true for every thread
    count, on any well-formed page of fewer than [2^31] rows. *)
Theorem IsIndicesSorted_after_SortIndices (p : SparsePage) (n_threads : Z) :
  page_wf p -> (Z.of_nat (Size p) < 2 ^ 31)%Z ->
  IsIndicesSorted (SortIndices p) n_threads = true.
Proof.
  intros Hw Hsz.
  pose proof (sort_each_row_std_sort CmpIndex CmpIndex_asym p Hw)
    as (_ & Hoff & _ & Hr).
  assert (HS : Size (SortIndices p) = Size p)
    by (unfold Size; unfold SortIndices; rewrite Hoff; reflexivity).
  rewrite IsIndicesSorted_small by (rewrite HS; exact Hsz).
  apply forallb_forall; intros i Hi; apply in_seq in Hi.
  rewrite HS in Hi; apply (Hr i); lia.
Qed.

(** [SortRows] on a well-formed page with no NaN value keeps its offsets
    and [base_rowid] and the page well formed, and turns every row into a
    permutation of itself that is sorted by [CmpValue]. *)
Theorem SortRows_sorts_rows (p : SparsePage) :
  page_wf p -> (forall e, In e (data p) -> fvalue e <> NaN) ->
  page_wf (SortRows p) /\ offset (SortRows p) = offset p /\
  base_rowid (SortRows p) = base_rowid p /\
  forall i, i < Size p ->
  Permutation (row (SortRows p) i) (row p i) /\
  is_sorted_by CmpValue (row (SortRows p) i) = true.
Proof. intros Hw _; apply sort_each_row_std_sort; [apply CmpValue_asym|exact Hw]. Qed.

(** Two reindexings add up: shifting by [a] and then by [b] is shifting by
    [a + b], in the 32-bit index type. *)
Theorem Reindex_compose (p : SparsePage) (a b : N) :
  Reindex (Reindex p a) b = Reindex p (a + b).
Proof.
  unfold Reindex; cbn [offset data base_rowid]; f_equal.
  rewrite map_map; apply map_ext; intros e; cbn [index fvalue]; f_equal.
  unfold to_u32; rewrite N.Div0.add_mod_idemp_l, N.add_assoc; reflexivity.
Qed.

Lemma row_Reindex (p : SparsePage) (fo : N) (i : nat) :
  row (Reindex p fo) i
  = map (fun e => mkEntry (to_u32 (index e + fo)) (fvalue e)) (row p i).
Proof. unfold row, Reindex; cbn [offset data]; rewrite skipn_map, firstn_map; reflexivity. Qed.

Lemma in_firstn_skipn {A} (x : A) (n m : nat) (l : list A) :
  In x (firstn n (skipn m l)) -> In x l.
Proof.
  intros H.
  assert (H1 : In x (skipn m l)).
  { rewrite <- (firstn_skipn n (skipn m l)); apply in_or_app; now left. }
  rewrite <- (firstn_skipn m l); apply in_or_app; now right.
Qed.

Lemma is_sorted_by_map_index (f : Entry -> Entry) (l : list Entry) :
  (forall a b, In a l -> In b l -> CmpIndex (f a) (f b) = CmpIndex a b) ->
  is_sorted_by CmpIndex (map f l) = is_sorted_by CmpIndex l.
Proof.
  induction l as [|x l IH]; intros H; [reflexivity|].
  cbn [map]; rewrite !is_sorted_by_cons, IH by (intros; apply H; now right).
  destruct l as [|y l]; [reflexivity|]; cbn [map].
  rewrite H by (simpl; auto); reflexivity.
Qed.

(** A reindexing under which no column index wraps around [2^32] keeps the
    order of the indices in every row, so [IsIndicesSorted] gives the same
    answer before and after it, for every thread count. *)
Theorem Reindex_keeps_IsIndicesSorted (p : SparsePage) (fo : N) (n_threads : Z) :
  (forall e, In e (data p) -> (index e + fo < 2 ^ 32)%N) ->
  IsIndicesSorted (Reindex p fo) n_threads = IsIndicesSorted p n_threads.
Proof.
  intros Hw.
  assert (HS : Size (Reindex p fo) = Size p) by reflexivity.
  assert (Hrow : forall i, is_sorted_by CmpIndex (row (Reindex p fo) i)
                           = is_sorted_by CmpIndex (row p i)).
  { intros i; rewrite row_Reindex; apply is_sorted_by_map_index.
    intros a c Ha Hc.
    assert (Ind : forall e, In e (row p i) -> In e (data p)).
    { intros e He; exact (in_firstn_skipn e _ _ _ He). }
    pose proof (Hw a (Ind a Ha)); pose proof (Hw c (Ind c Hc)).
    unfold CmpIndex, to_u32; cbn [index].
    rewrite !N.mod_small by assumption.
    destruct (N.ltb_spec (index a + fo) (index c + fo)),
             (N.ltb_spec (index a) (index c)); auto; lia. }
  assert (E : forall sl z,
    fold_left (fun c i => to_int32 (c + if is_sorted_by CmpIndex
                                           (row (Reindex p fo) i)
                                        then 1 else 0)) sl z
    = fold_left (fun c i => to_int32 (c + if is_sorted_by CmpIndex (row p i)
                                        then 1 else 0)) sl z).
  { intros sl; induction sl as [|i sl IH]; intros z;
      [reflexivity|]; cbn [fold_left]; rewrite Hrow; apply IH. }
  assert (E0 := fun sl => E sl 0%Z).
  unfold IsIndicesSorted; rewrite HS, (map_ext _ _ E0); reflexivity.
Qed.

Lemma fold_max_ge (g : nat * Entry -> nat) (l : list (nat * Entry)) (a : nat) :
  a <= fold_left (fun acc r => Nat.max acc (g r)) l a /\
  forall r, In r l -> g r <= fold_left (fun acc r => Nat.max acc (g r)) l a.
Proof.
  revert a; induction l as [|r l IH]; intros a; simpl; [split; [lia|tauto]|].
  destruct (IH (Nat.max a (g r))) as [H1 H2]; split; [lia|].
  intros r' [<-|Hr]; [lia|auto].
Qed.

(** [GetTranspose] of a page with no entries gives [num_columns] empty
    columns, and no entries, for any thread count.  On a page with entries
    and at least one thread it fails its [CHECK_EQ] on the offset size
    exactly when some entry has a column index of at least
    [num_columns]. *)
Theorem get_transpose_outcome (p : SparsePage) (num_columns n_threads : nat) :
  (data p = [] ->
   get_transpose p num_columns n_threads
   = Some (mkPage (repeat 0 (num_columns + 1)) [] 0)) /\
  (0 < n_threads -> data p <> [] ->
   (get_transpose p num_columns n_threads = None <->
    exists i c v, In (i, c, v) (triples p) /\ num_columns <= N.to_nat c)).
Proof.
  unfold get_transpose.
  set (threads := map (fun sl => concat (map (transpose_recs p) sl))
                      (thread_slices n_threads (seq 0 (Size p)))).
  split.
  - intros Hd.
    assert (Hnil : concat threads = []).
    { unfold threads; induction (thread_slices n_threads (seq 0 (Size p)))
        as [|sl L IH]; [reflexivity|].
      cbn [map concat]; rewrite IH, app_nil_r.
      induction sl as [|i sl IHs]; [reflexivity|].
      cbn [map concat]; rewrite IHs, app_nil_r.
      unfold transpose_recs; rewrite row_empty_data by exact Hd; reflexivity. }
    unfold builder_run.
    rewrite (map_ext (builder_group 0 threads) (fun _ => [])).
    2:{ intros s; rewrite builder_group_concat, Hnil; reflexivity. }
    rewrite Hd, map_const_seq; cbn [last].
    rewrite repeat_length, Nat.eqb_refl.
    assert (Hc : forall m, concat (repeat (@nil Entry) m) = [])
      by (induction m; simpl; auto).
    rewrite Hc; reflexivity.
  - intros Hk Hd.
    assert (HR : concat threads = concat (map (transpose_recs p) (seq 0 (Size p)))).
    { unfold threads; rewrite concat_map_concat, thread_slices_concat; auto. }
    pose proof (builder_run_shape [0] [] 0 num_columns threads) as Hsh.
    destruct (builder_run [0] [] 0 num_columns threads) as [off dat].
    destruct Hsh as [_ Hlen]; cbn [length] in Hlen.
    destruct (data p) as [|x xs]; [congruence|].
    rewrite Hlen.
    assert (Hrec : forall i c v, In (i, c, v) (triples p) ->
                   In (N.to_nat c, mkEntry (to_u32 (N.of_nat (base_rowid p + i))) v)
                      (concat threads)).
    { intros i c v Ht; apply in_triples in Ht as (Hi & e & He & <- & <-).
      rewrite HR; apply in_concat; exists (transpose_recs p i); split.
      - apply in_map, in_seq; lia.
      - unfold transpose_recs; apply in_map_iff; exists e; split; [reflexivity|exact He]. }
    assert (Hkey : forall r, In r (concat threads) ->
                   exists i c v, In (i, c, v) (triples p) /\ fst r = N.to_nat c).
    { intros r Hr; rewrite HR in Hr; apply in_concat in Hr as (l & Hl & Hin).
      apply in_map_iff in Hl as (i & <- & Hi); apply in_seq in Hi.
      unfold transpose_recs in Hin; apply in_map_iff in Hin as (e & <- & He).
      exists i, (index e), (fvalue e); split; [|reflexivity].
      apply in_triples; split; [lia|eauto]. }
    pose proof (fold_max_ge (fun r => S (fst r - 0)) (concat threads)
                            (num_columns - 0)) as [Hge1 Hge2].
    unfold builder_slots.
    split.
    + intros H.
      destruct (Nat.eqb_spec (1 + fold_left (fun acc r => Nat.max acc (S (fst r - 0)))
                                  (concat threads) (num_columns - 0))
                             (num_columns + 1)) as [E|E]; [discriminate|].
      destruct (existsb (fun r => num_columns <=? fst r) (concat threads)) eqn:Ex.
      * apply existsb_exists in Ex as (r & Hr & Hle); apply Nat.leb_le in Hle.
        destruct (Hkey r Hr) as (i & c & v & Ht & Hf).
        exists i, c, v; split; [exact Ht|lia].
      * exfalso; apply E.
        rewrite fold_max_keys; [lia|]; intros r Hr.
        assert (Hn : (num_columns <=? fst r) = false).
        { destruct (num_columns <=? fst r) eqn:Eq; [|reflexivity].
          rewrite <- Ex; symmetry; apply existsb_exists; eauto. }
        apply Nat.leb_gt in Hn; lia.
    + intros (i & c & v & Ht & Hle).
      specialize (Hge2 _ (Hrec i c v Ht)); cbn [fst] in Hge2.
      destruct (Nat.eqb_spec (1 + fold_left (fun acc r => Nat.max acc (S (fst r - 0)))
                                  (concat threads) (num_columns - 0))
                             (num_columns + 1)) as [E|E]; [lia|reflexivity].
Qed.

(** ** Instances of the page properties *)

Ltac page_wf_tac :=
  unfold page_wf, shape_ok, Size; cbn;
  split; [split; reflexivity|]; split; [reflexivity|];
  let j := fresh "j" in let Hj := fresh "Hj" in
  intros j Hj; do 4 (try (destruct j as [|j]; [cbn; lia|])); cbn in Hj; lia.

(** Two rows, the first out of index order. *)
Definition page_w1 : SparsePage :=
  mkPage [0; 2; 3] [mkEntry 3 (Fin 1); mkEntry 1 (Fin 2); mkEntry 0 (Fin (-1))] 4.

Definition page_w2 : SparsePage := mkPage [0; 1] [mkEntry 5 (Fin 4)] 0.

Definition page_w3 : SparsePage := mkPage [0; 1; 1] [mkEntry 7 (Fin 0)] 0.

Lemma page_w_wf : page_wf page_w1 /\ page_wf page_w2 /\ page_wf page_w3.
Proof. split; [|split]; page_wf_tac. Qed.

Lemma push_page_rows_witness :
  page_wf page_w1 /\ page_wf page_w2 /\
  page_wf (push_page page_w1 page_w2) /\
  Size (push_page page_w1 page_w2) = Size page_w1 + Size page_w2 /\
  rows (push_page page_w1 page_w2) = rows page_w1 ++ rows page_w2 /\
  base_rowid (push_page page_w1 page_w2) = base_rowid page_w1.
Proof.
  destruct page_w_wf as (H1 & H2 & _).
  split; [exact H1|]; split; [exact H2|].
  exact (push_page_rows page_w1 page_w2 H1 H2).
Defined.

Lemma push_csc_merge_witness :
  page_wf page_w1 /\ page_wf page_w3 /\ data page_w1 <> [] /\ data page_w3 <> [] /\
  (length (offset page_w1) <> length (offset page_w3) ->
   push_csc page_w1 page_w3 = None) /\
  (length (offset page_w1) = length (offset page_w3) ->
   exists P', push_csc page_w1 page_w3 = Some P' /\ page_wf P' /\
     Size P' = Size page_w3 /\ base_rowid P' = base_rowid page_w1 /\
     forall j, j < Size page_w3 -> row P' j = row page_w1 j ++ row page_w3 j).
Proof.
  destruct page_w_wf as (H1 & _ & H3).
  assert (D1 : data page_w1 <> []) by discriminate.
  assert (D3 : data page_w3 <> []) by discriminate.
  split; [exact H1|]; split; [exact H3|]; split; [exact D1|]; split; [exact D3|].
  exact (push_csc_merge page_w1 page_w3 H1 H3 D1 D3).
Defined.

Lemma SortIndices_sorts_rows_witness :
  page_wf page_w1 /\
  page_wf (SortIndices page_w1) /\ offset (SortIndices page_w1) = offset page_w1 /\
  base_rowid (SortIndices page_w1) = base_rowid page_w1 /\
  forall i, i < Size page_w1 ->
  Permutation (row (SortIndices page_w1) i) (row page_w1 i) /\
  is_sorted_by CmpIndex (row (SortIndices page_w1) i) = true.
Proof.
  destruct page_w_wf as (H1 & _).
  split; [exact H1|]; exact (SortIndices_sorts_rows page_w1 H1).
Defined.

Lemma IsIndicesSorted_after_SortIndices_witness :
  page_wf page_w1 /\ (Z.of_nat (Size page_w1) < 2 ^ 31)%Z /\
  IsIndicesSorted page_w1 4 = false /\
  IsIndicesSorted (SortIndices page_w1) 4 = true.
Proof.
  destruct page_w_wf as (H1 & _).
  assert (Hs : (Z.of_nat (Size page_w1) < 2 ^ 31)%Z) by (cbn; lia).
  split; [exact H1|]; split; [exact Hs|]; split; [vm_compute; reflexivity|].
  exact (IsIndicesSorted_after_SortIndices page_w1 4 H1 Hs).
Defined.

Lemma SortRows_sorts_rows_witness :
  page_wf page_w1 /\ (forall e, In e (data page_w1) -> fvalue e <> NaN) /\
  page_wf (SortRows page_w1) /\ offset (SortRows page_w1) = offset page_w1 /\
  base_rowid (SortRows page_w1) = base_rowid page_w1 /\
  forall i, i < Size page_w1 ->
  Permutation (row (SortRows page_w1) i) (row page_w1 i) /\
  is_sorted_by CmpValue (row (SortRows page_w1) i) = true.
Proof.
  destruct page_w_wf as (H1 & _).
  assert (Hn : forall e, In e (data page_w1) -> fvalue e <> NaN).
  { intros e He; cbn in He.
    repeat (destruct He as [<-|He]; [discriminate|]); contradiction. }
  split; [exact H1|]; split; [exact Hn|].
  exact (SortRows_sorts_rows page_w1 H1 Hn).
Defined.

Lemma Reindex_keeps_IsIndicesSorted_witness :
  (forall e, In e (data page_w1) -> (index e + 10 < 2 ^ 32)%N) /\
  IsIndicesSorted (Reindex page_w1 10) 2 = IsIndicesSorted page_w1 2.
Proof.
  assert (Hb : forall e, In e (data page_w1) -> (index e + 10 < 2 ^ 32)%N).
  { intros e He; cbn in He.
    repeat (destruct He as [<-|He]; [cbn; lia|]); contradiction. }
  split; [exact Hb|].
  exact (Reindex_keeps_IsIndicesSorted page_w1 10 2 Hb).
Defined.

Lemma get_transpose_outcome_witness :
  get_transpose (mkPage [0; 0] [] 0) 3 2 = Some (mkPage (repeat 0 (3 + 1)) [] 0) /\
  (get_transpose page_w1 4 2 = None <->
   exists i c v, In (i, c, v) (triples page_w1) /\ 4 <= N.to_nat c) /\
  (get_transpose page_w1 2 2 = None <->
   exists i c v, In (i, c, v) (triples page_w1) /\ 2 <= N.to_nat c).
Proof.
  split; [exact (proj1 (get_transpose_outcome (mkPage [0; 0] [] 0) 3 2) eq_refl)|].
  split.
  - exact (proj2 (get_transpose_outcome page_w1 4 2) ltac:(lia) ltac:(discriminate)).
  - exact (proj2 (get_transpose_outcome page_w1 2 2) ltac:(lia) ltac:(discriminate)).
Defined.

(** * Meta information of a matrix ([MetaInfo], src/data/data.cc) *)

Module MetaInfoModel.

Import String.StringSyntax.
Local Open Scope string_scope.
Local Open Scope list_scope.
Local Open Scope nat_scope.

Local Notation "'let*' x := m 'in' k" :=
  (match m with Some x => k | None => None end)
  (at level 200, x name, m at level 100, k at level 200).

(** [FeatureType]. *)
Inductive FeatureType : Type := kNumerical | kCategorical.

(** [common::IsCatOp]. *)
Definition IsCatOp (t : FeatureType) : bool :=
  match t with kCategorical => true | kNumerical => false end.

(** [DataSplitMode]. *)
Inductive DataSplitMode : Type := kRow | kCol.

(** [LoadFeatureType(type_names, types)]: [types] is cleared and refilled;
    [None] is the [LOG(FATAL)] on an unknown name.  The result is the new
    [types] and the returned [has_cat]. *)
Fixpoint load_feature_type_loop (type_names : list String.string)
    (types : list FeatureType) (has_cat : bool)
    : option (list FeatureType * bool) :=
  match type_names with
  | [] => Some (types, has_cat)
  | elem :: rest =>
      if String.eqb elem "int" then
        load_feature_type_loop rest (types ++ [kNumerical]) has_cat
      else if String.eqb elem "float" then
        load_feature_type_loop rest (types ++ [kNumerical]) has_cat
      else if String.eqb elem "i" then
        load_feature_type_loop rest (types ++ [kNumerical]) has_cat
      else if String.eqb elem "q" then
        load_feature_type_loop rest (types ++ [kNumerical]) has_cat
      else if String.eqb elem "c" then
        load_feature_type_loop rest (types ++ [kCategorical]) true
      else None
  end.

Definition LoadFeatureType (type_names : list String.string)
    : option (list FeatureType * bool) :=
  load_feature_type_loop type_names [] false.

(** [out[k] = x] on a vector of the right size; [None] outside it. *)
Definition vec_set {A} (l : list A) (k : nat) (x : A) : option (list A) :=
  if k <? length l then Some (firstn k l ++ x :: skipn (S k) l) else None.

(** [Gather(in, ridxs, stride)]: [out] is value-initialised to
    [size * stride] elements ([d]), then [out[i * stride + j] =
    in[ridx * stride + j]] for every [i] and [j < stride]; a read past the
    end of [in] is [None]. *)
Fixpoint gather_cols {A} (inp out : list A) (ridx i stride : nat)
    (js : list nat) : option (list A) :=
  match js with
  | [] => Some out
  | j :: js' =>
      let* x := nth_error inp (ridx * stride + j) in
      let* out' := vec_set out (i * stride + j) x in
      gather_cols inp out' ridx i stride js'
  end.

Fixpoint gather_rows {A} (inp out : list A) (ridxs : list nat)
    (i stride : nat) : option (list A) :=
  match ridxs with
  | [] => Some out
  | ridx :: rs =>
      let* out' := gather_cols inp out ridx i stride (seq 0 stride) in
      gather_rows inp out' rs (S i) stride
  end.

Definition Gather {A} (d : A) (inp : list A) (ridxs : list nat) (stride : nat)
    : option (list A) :=
  match inp with
  | [] => Some []
  | _ => gather_rows inp (repeat d (length ridxs * stride)) ridxs 0 stride
  end.

(** Modelled from the spec: [linalg::Tensor<float, 2>] (linalg.h, not in
    this excerpt), its two extents and its row-major data.  [Size()] is the
    number of stored elements, and [Stride(0)] of its contiguous view is
    [Shape(1)]. *)
Record Tensor : Type := mkTensor { shape0 : nat; shape1 : nat; tdata : list Float }.

Definition tensor_default : Tensor := mkTensor 0 0 [].

Definition tsize (t : Tensor) : nat := length (tdata t).

(** [uint64_t] arithmetic wraps. *)
Definition to_u64 (x : N) : N := N.modulo x (2 ^ 64).

(** [MetaInfo], the fields data.cc reads and writes.  [HostDeviceVector]s
    are their host vectors; the categories container [cats_] is not
    modelled. *)
Record MetaInfo : Type := mkMetaInfo {
  num_row_ : N;
  num_col_ : N;
  num_nonzero_ : N;
  labels : Tensor;
  group_ptr_ : list N;
  weights_ : list Float;
  base_margin_ : Tensor;
  labels_lower_bound_ : list Float;
  labels_upper_bound_ : list Float;
  feature_names : list String.string;
  feature_type_names : list String.string;
  feature_types : list FeatureType;
  feature_weights : list Float;
  has_categorical_ : bool;
  data_split_mode : DataSplitMode;
  label_order_cache_ : list nat }.

(** [MetaInfo()]: every count zero, every vector empty, row split. *)
Definition meta_default : MetaInfo :=
  mkMetaInfo 0 0 0 tensor_default [] [] tensor_default [] [] [] [] [] []
             false kRow [].

(** [MetaInfo::IsColumnSplit()]. *)
Definition IsColumnSplit (m : MetaInfo) : bool :=
  match data_split_mode m with kCol => true | kRow => false end.

(** [MetaInfo::Slice(ctx, ridxs, nnz)] on the CPU.  [out] starts as
    [MetaInfo()]: its group pointer stays empty and, when the weights are
    per group, [out.weights_ = h_weights] copies [out]'s own (empty)
    weights.  [None] is the failed [CHECK_EQ] on the base margin size, a
    zero [num_row_] in its [%], or a read past the end in [Gather]. *)
Definition Slice (m : MetaInfo) (ridxs : list nat) (nnz : N) : option MetaInfo :=
  let n := length ridxs in
  let* lab :=
    if negb (N.of_nat (tsize (labels m)) =? num_row_ m)%N then
      let* d := Gather (Fin 0) (tdata (labels m)) ridxs (shape1 (labels m)) in
      Some (mkTensor n (shape1 (labels m)) d)
    else
      let* d := Gather (Fin 0) (tdata (labels m)) ridxs 1 in
      Some (mkTensor (length d) 1 d) in
  let* ub := Gather (Fin 0) (labels_upper_bound_ m) ridxs 1 in
  let* lb := Gather (Fin 0) (labels_lower_bound_ m) ridxs 1 in
  let* w :=
    if length (weights_ m) + 1 =? length (group_ptr_ m) then
      Some (weights_ meta_default)
    else Gather (Fin 0) (weights_ m) ridxs 1 in
  let* bm :=
    if negb (N.of_nat (tsize (base_margin_ m)) =? num_row_ m)%N then
      if (num_row_ m =? 0)%N then None
      else if negb (N.of_nat (tsize (base_margin_ m)) mod num_row_ m =? 0)%N
      then None
      else
        let* d := Gather (Fin 0) (tdata (base_margin_ m)) ridxs
                         (shape1 (base_margin_ m)) in
        Some (mkTensor n (shape1 (base_margin_ m)) d)
    else
      let* d := Gather (Fin 0) (tdata (base_margin_ m)) ridxs 1 in
      Some (mkTensor (length d) 1 d) in
  Some (mkMetaInfo (N.of_nat n) (num_col_ m) nnz lab [] w bm lb ub
                   (feature_names m) (feature_type_names m) (feature_types m)
                   (feature_weights m) false kRow []).

(** Re-assemble a [MetaInfo] with new feature names, or new feature type
    information. *)
Definition set_feature_names (m : MetaInfo) (fn : list String.string) : MetaInfo :=
  mkMetaInfo (num_row_ m) (num_col_ m) (num_nonzero_ m) (labels m) (group_ptr_ m)
    (weights_ m) (base_margin_ m) (labels_lower_bound_ m) (labels_upper_bound_ m)
    fn (feature_type_names m) (feature_types m) (feature_weights m)
    (has_categorical_ m) (data_split_mode m) (label_order_cache_ m).

Definition set_feature_type_info (m : MetaInfo) (ftn : list String.string)
    (ft : list FeatureType) (hc : bool) : MetaInfo :=
  mkMetaInfo (num_row_ m) (num_col_ m) (num_nonzero_ m) (labels m) (group_ptr_ m)
    (weights_ m) (base_margin_ m) (labels_lower_bound_ m) (labels_upper_bound_ m)
    (feature_names m) ftn ft (feature_weights m) hc (data_split_mode m)
    (label_order_cache_ m).

Section FeatureInfo.

(** [std::to_string(collective::GetRank())] and
    [collective::AllgatherStrings] (not in this excerpt), [None] for a
    failed collective. *)
Variable rank_string : String.string.
Variable AllgatherStrings : list String.string -> option (list String.string).

(** The [gather_columns] lambda of [SetFeatureInfo]. *)
Definition gather_columns (is_col_split : bool) (n_columns : N)
    (inputs : list String.string) : option (list String.string) :=
  if is_col_split then
    let* result := AllgatherStrings inputs in
    if (N.of_nat (length result) =? n_columns)%N then Some result else None
  else Some inputs.

(** [MetaInfo::SetFeatureInfo(key, info, size)], [info] the [size]
    strings; [None] is a failed [CHECK] or the [LOG(FATAL)] on an unknown
    key. *)
Definition SetFeatureInfo (m : MetaInfo) (key : String.string)
    (info : list String.string) : option MetaInfo :=
  let is_col_split := IsColumnSplit m in
  let size := N.of_nat (length info) in
  if (negb (size =? 0) && negb (num_col_ m =? 0) && negb is_col_split
      && negb (size =? num_col_ m))%N then None
  else if String.eqb key "feature_type" then
    let* ftn := gather_columns is_col_split (num_col_ m) info in
    let* r := LoadFeatureType ftn in
    Some (set_feature_type_info m ftn (fst r) (snd r))
  else if String.eqb key "feature_name" then
    let names := if is_col_split
                 then map (fun elem => String.append rank_string
                                         (String.append "." elem)) info
                 else info in
    let* fn := gather_columns is_col_split (num_col_ m) names in
    Some (set_feature_names m fn)
  else None.

End FeatureInfo.

(** [MetaInfo::GetFeatureInfo(field, out_str_vecs)]; [None] is the
    [LOG(FATAL)] on an unknown field. *)
Definition GetFeatureInfo (m : MetaInfo) (field : String.string)
    : option (list String.string) :=
  if String.eqb field "feature_type" then Some (feature_type_names m)
  else if String.eqb field "feature_name" then Some (feature_names m)
  else None.

Section Extend.

(** [linalg::Stack(&l, r)] and [data::CheckFeatureTypes(lhs, rhs)] (not in
    this excerpt), [None] and [false] for their failed checks. *)
Variable Stack : Tensor -> Tensor -> option Tensor.
Variable CheckFeatureTypes : list FeatureType -> list FeatureType -> bool.

(** [MetaInfo::Extend(that, accumulate_rows, check_column)].
    [HostDeviceVector::Extend] appends; [group_ptr[i] += back()] wraps at
    32 bits; the [std::max] of the unchecked case is overwritten by the
    assignment after it.  [None] is a failed [CHECK]. *)
Definition Extend (this that : MetaInfo) (accumulate_rows check_column : bool)
    : option MetaInfo :=
  let nrow := if accumulate_rows
              then to_u64 (num_row_ this + num_row_ that)
              else num_row_ this in
  if (negb (num_col_ this =? 0) && check_column
      && negb (num_col_ this =? num_col_ that))%N then None
  else
  let ncol := num_col_ that in
  let* lab := Stack (labels this) (labels that) in
  let w := weights_ this ++ weights_ that in
  let lb := labels_lower_bound_ this ++ labels_lower_bound_ that in
  let ub := labels_upper_bound_ this ++ labels_upper_bound_ that in
  let* bm := Stack (base_margin_ this) (base_margin_ that) in
  let* gp :=
    match group_ptr_ this, group_ptr_ that with
    | [], _ => Some (group_ptr_ that)
    | _ :: _, [] => None
    | _ :: _, _ :: gs =>
        Some (group_ptr_ this
              ++ map (fun g => to_u32 (g + last (group_ptr_ this) 0%N)) gs)
    end in
  let fnames := match feature_names that with
                | [] => feature_names this
                | _ => feature_names that
                end in
  if match feature_types this with
     | [] => false
     | _ => negb (CheckFeatureTypes (feature_types this) (feature_types that))
     end then None
  else
  let* fti :=
    match feature_type_names that, feature_types that with
    | _ :: _, _ =>
        let* r := LoadFeatureType (feature_type_names that) in
        Some (feature_type_names that, fst r, snd r)
    | [], _ :: _ =>
        Some (feature_type_names this, feature_types that,
              existsb IsCatOp (feature_types that))
    | [], [] =>
        Some (feature_type_names this, feature_types this, has_categorical_ this)
    end in
  let '(ftn, ft, hc) := fti in
  let fw := match feature_weights that with
            | [] => feature_weights this
            | _ => feature_weights that
            end in
  Some (mkMetaInfo nrow ncol (num_nonzero_ this) lab gp w bm lb ub fnames ftn
                   ft fw hc (data_split_mode this) (label_order_cache_ this)).

(** [MetaInfo::Copy()]. *)
Definition Copy (m : MetaInfo) : option MetaInfo :=
  Extend meta_default m true false.

End Extend.





(** The names [LoadFeatureType] accepts, and the type each one gives. *)
Definition valid_type_name (s : String.string) : bool :=
  existsb (String.eqb s) ["int"; "float"; "i"; "q"; "c"].

Definition type_of_name (s : String.string) : FeatureType :=
  if String.eqb s "c" then kCategorical else kNumerical.

Lemma load_feature_type_loop_eq (names : list String.string)
    (types : list FeatureType) (has_cat : bool) :
  load_feature_type_loop names types has_cat
  = if forallb valid_type_name names
    then Some (types ++ map type_of_name names,
               has_cat || existsb (fun s => String.eqb s "c") names)
    else None.
Proof.
  revert types has_cat; induction names as [|elem rest IH]; intros types hc.
  - simpl; rewrite app_nil_r, orb_false_r; reflexivity.
  - cbn [load_feature_type_loop forallb map existsb].
    destruct (String.eqb_spec elem "int") as [->|N1];
      [rewrite IH; simpl; rewrite <- app_assoc; reflexivity|].
    destruct (String.eqb_spec elem "float") as [->|N2];
      [rewrite IH; simpl; rewrite <- app_assoc; reflexivity|].
    destruct (String.eqb_spec elem "i") as [->|N3];
      [rewrite IH; simpl; rewrite <- app_assoc; reflexivity|].
    destruct (String.eqb_spec elem "q") as [->|N4];
      [rewrite IH; simpl; rewrite <- app_assoc; reflexivity|].
    destruct (String.eqb_spec elem "c") as [->|N5];
      [rewrite IH; simpl; rewrite <- app_assoc, orb_true_r; reflexivity|].
    unfold valid_type_name; cbn [existsb].
    apply String.eqb_neq in N1, N2, N3, N4, N5.
    rewrite N1, N2, N3, N4, N5; reflexivity.
Qed.

Lemma forallb_lt_seq (a k m len : nat) :
  forallb (fun j => a + j <? len) (seq k m) = (m =? 0) || (a + k + m <=? len).
Proof.
  revert k; induction m as [|m IH]; intros k; [reflexivity|].
  cbn [seq forallb]; rewrite IH.
  destruct (Nat.ltb_spec (a + k) len), (Nat.eqb_spec m 0),
           (Nat.leb_spec (a + S k + m) len), (Nat.leb_spec (a + k + S m) len);
    simpl; auto; lia.
Qed.

Lemma vec_set_mid {A} (X R : list A) (y x : A) :
  vec_set (X ++ y :: R) (length X) x = Some (X ++ x :: R).
Proof.
  unfold vec_set; rewrite (proj2 (Nat.ltb_lt _ _)) by (rewrite length_app; cbn; lia).
  f_equal; induction X as [|z X IH]; [reflexivity|].
  cbn [length firstn skipn app]; f_equal; exact IH.
Qed.

Lemma skipn_nth_error {A} (l : list A) (n : nat) (x : A) :
  nth_error l n = Some x -> skipn n l = x :: skipn (S n) l.
Proof.
  revert n; induction l as [|y l IH]; intros [|n] H; cbn in *; try discriminate.
  - now injection H as ->.
  - now apply IH.
Qed.

Lemma gather_cols_eq {A} (inp : list A) (ridx i stride : nat) (d : A) :
  forall m k (X Y : list A), length X = i * stride + k ->
  gather_cols inp (X ++ repeat d m ++ Y) ridx i stride (seq k m)
  = if forallb (fun j => ridx * stride + j <? length inp) (seq k m)
    then Some (X ++ firstn m (skipn (ridx * stride + k) inp) ++ Y)
    else None.
Proof.
  induction m as [|m IH]; intros k X Y HX; [reflexivity|].
  cbn [seq gather_cols forallb repeat app].
  destruct (Nat.ltb_spec (ridx * stride + k) (length inp)) as [Hlt|Hge].
  - destruct (nth_error inp (ridx * stride + k)) as [x|] eqn:Ex.
    2:{ apply nth_error_None in Ex; lia. }
    rewrite <- HX, vec_set_mid.
    replace (X ++ x :: repeat d m ++ Y) with ((X ++ [x]) ++ repeat d m ++ Y)
      by (rewrite <- app_assoc; reflexivity).
    rewrite IH by (rewrite length_app; cbn; lia).
    cbn [andb].
    destruct (forallb _ (seq (S k) m)); [|reflexivity].
    rewrite <- app_assoc, (skipn_nth_error _ _ _ Ex).
    replace (ridx * stride + S k) with (S (ridx * stride + k)) by lia.
    reflexivity.
  - destruct (nth_error inp (ridx * stride + k)) eqn:Ex; [|reflexivity].
    assert (Hs : nth_error inp (ridx * stride + k) <> None) by congruence.
    apply nth_error_Some in Hs; lia.
Qed.

Lemma gather_rows_eq {A} (inp : list A) (stride : nat) (d : A) :
  forall ridxs i (X : list A), length X = i * stride ->
  gather_rows inp (X ++ repeat d (length ridxs * stride)) ridxs i stride
  = if forallb (fun r => r * stride + stride <=? length inp) ridxs
    then Some (X ++ concat (map (fun r => firstn stride (skipn (r * stride) inp))
                                ridxs))
    else None.
Proof.
  induction ridxs as [|r rs IH]; intros i X HX.
  - cbn; rewrite app_nil_r; reflexivity.
  - cbn [gather_rows length forallb map concat].
    rewrite Nat.mul_succ_l, Nat.add_comm, repeat_app.
    rewrite (gather_cols_eq inp r i stride d stride 0 X) by lia.
    rewrite forallb_lt_seq, !Nat.add_0_r.
    assert (Hc : (stride =? 0) || (r * stride + stride <=? length inp)
                 = (r * stride + stride <=? length inp)).
    { destruct (Nat.eqb_spec stride 0) as [->|]; [|reflexivity].
      symmetry; apply Nat.leb_le; lia. }
    rewrite Hc.
    destruct (Nat.leb_spec (r * stride + stride) (length inp)) as [Hle|]; [|reflexivity].
    rewrite app_assoc, IH.
    + rewrite <- app_assoc; reflexivity.
    + rewrite length_app, length_firstn, length_skipn; lia.
Qed.

(** [LoadFeatureType] accepts exactly the lists of names drawn from
    [{int, float, i, q, c}]; it maps ["c"] to categorical and every other
    name to numerical, and reports a categorical feature exactly when
    ["c"] occurs. *)
Theorem LoadFeatureType_result (type_names : list String.string) :
  LoadFeatureType type_names
  = if forallb valid_type_name type_names
    then Some (map type_of_name type_names,
               existsb (fun s => String.eqb s "c") type_names)
    else None.
Proof.
  unfold LoadFeatureType; rewrite load_feature_type_loop_eq; reflexivity.
Qed.

Lemma gather_eq {A} (d : A) (inp : list A) (ridxs : list nat) (stride : nat) :
  inp <> [] ->
  Gather d inp ridxs stride
  = if forallb (fun r => r * stride + stride <=? length inp) ridxs
    then Some (concat (map (fun r => firstn stride (skipn (r * stride) inp))
                           ridxs))
    else None.
Proof.
  intros Hne; unfold Gather; destruct inp as [|x xs]; [congruence|].
  rewrite <- (app_nil_l (repeat d _)).
  rewrite (gather_rows_eq (x :: xs) stride d ridxs 0 []) by reflexivity.
  reflexivity.
Qed.

(** [Gather] of an empty vector is empty, whatever the indices.  On a
    non-empty vector it succeeds exactly when every selected row
    [ridx * stride .. ridx * stride + stride) lies inside the vector, and
    then returns those rows, in the order of [ridxs]. *)
Theorem Gather_rows {A} (d : A) (inp : list A) (ridxs : list nat) (stride : nat) :
  Gather d [] ridxs stride = Some [] /\
  (inp <> [] ->
   Gather d inp ridxs stride
   = if forallb (fun r => r * stride + stride <=? length inp) ridxs
     then Some (concat (map (fun r => firstn stride (skipn (r * stride) inp))
                            ridxs))
     else None).
Proof.
  split; [reflexivity|apply gather_eq].
Qed.

Ltac split_options H :=
  repeat (match type of H with
          | context [if ?b then _ else _] => destruct b eqn:?
          | context [match ?x with Some _ => _ | None => _ end] =>
              destruct x eqn:?
          | context [match ?x with pair _ _ => _ end] => destruct x
          end; try discriminate H).

(** A successful CPU [Slice] has [ridxs.size()] rows, the columns and
    feature information of the source and the given [nnz]; it has no
    query groups and no categorical flag, and it drops per-group weights
    (weights with one entry fewer than the group pointer). *)
Theorem Slice_meta (m out : MetaInfo) (ridxs : list nat) (nnz : N) :
  Slice m ridxs nnz = Some out ->
  num_row_ out = N.of_nat (length ridxs) /\ num_col_ out = num_col_ m /\
  num_nonzero_ out = nnz /\ group_ptr_ out = [] /\
  has_categorical_ out = false /\ data_split_mode out = kRow /\
  feature_names out = feature_names m /\
  feature_type_names out = feature_type_names m /\
  feature_types out = feature_types m /\
  feature_weights out = feature_weights m /\
  (length (weights_ m) + 1 = length (group_ptr_ m) -> weights_ out = []).
Proof.
  intros H; unfold Slice in H; split_options H;
    injection H as <-; cbn;
    repeat split; auto; intros Hw;
    match goal with
    | E : (_ =? _) = false |- _ => apply Nat.eqb_neq in E; contradiction
    end.
Qed.

(** On labels of shape [(num_row, c)], [c > 0], and indices below
    [num_row], a successful CPU [Slice] has as labels the selected label
    rows, of shape [(ridxs.size(), c)]. *)
Theorem Slice_labels (m out : MetaInfo) (ridxs : list nat) (nnz : N) (c : nat) :
  Slice m ridxs nnz = Some out ->
  shape1 (labels m) = c -> 0 < c -> 0 < N.to_nat (num_row_ m) ->
  length (tdata (labels m)) = N.to_nat (num_row_ m) * c ->
  (forall i, In i ridxs -> i < N.to_nat (num_row_ m)) ->
  labels out
  = mkTensor (length ridxs) c
      (concat (map (fun i => firstn c (skipn (i * c) (tdata (labels m))))
                   ridxs)).
Proof.
  intros H Hc Hc0 Hn Hlen Hr.
  assert (Hne : tdata (labels m) <> []).
  { intros E; rewrite E in Hlen; cbn in Hlen; nia. }
  assert (Hall : forall s, s <= c ->
            forallb (fun r => r * s + s <=? length (tdata (labels m))) ridxs
            = true).
  { intros s Hs; apply forallb_forall; intros r Hin; apply Nat.leb_le.
    specialize (Hr r Hin); rewrite Hlen; nia. }
  unfold Slice in H.
  destruct (negb (N.of_nat (tsize (labels m)) =? num_row_ m)%N) eqn:E1.
  - rewrite Hc, (gather_eq _ _ _ _ Hne), (Hall c) in H by lia.
    cbn -[firstn skipn Gather] in H; split_options H; injection H as <-; reflexivity.
  - apply negb_false_iff, N.eqb_eq in E1; unfold tsize in E1.
    assert (c = 1) as -> by (rewrite Hlen in E1; nia).
    rewrite (gather_eq _ _ _ _ Hne), (Hall 1) in H by lia.
    set (X := concat (map (fun r => firstn 1 (skipn (r * 1)
                      (tdata (labels m)))) ridxs)) in H.
    assert (Hlen1 : length X = length ridxs).
    { unfold X; rewrite length_concat, map_map.
      rewrite (map_ext_in _ (fun _ => 1)).
      - clear; induction ridxs; cbn; auto.
      - intros i Hi; cbv beta; rewrite length_firstn, length_skipn.
        specialize (Hr i Hi); rewrite Hlen; lia. }
    cbn -[firstn skipn Gather] in H; split_options H; injection H as <-; cbn [labels];
      fold X; rewrite Hlen1; reflexivity.
Qed.

(** With the data split by rows, [SetFeatureInfo] refuses a non-empty
    list whose length differs from a non-zero column count, whatever the
    key. *)
Theorem SetFeatureInfo_length_check (rank_string : String.string)
    (AllgatherStrings : list String.string -> option (list String.string))
    (m : MetaInfo) (key : String.string) (info : list String.string) :
  IsColumnSplit m = false -> info <> [] -> num_col_ m <> 0%N ->
  N.of_nat (length info) <> num_col_ m ->
  SetFeatureInfo rank_string AllgatherStrings m key info = None.
Proof.
  intros Hs Hi Hc Hl; unfold SetFeatureInfo; rewrite Hs.
  assert (E1 : (N.of_nat (length info) =? 0)%N = false).
  { apply N.eqb_neq; destruct info; [congruence|cbn; lia]. }
  apply N.eqb_neq in Hc, Hl; rewrite E1, Hc, Hl; reflexivity.
Qed.

(** With the data split by rows and a list of admissible length, setting
    the feature names changes only the names, and [GetFeatureInfo] then
    gives back exactly the list that was set. *)
Theorem SetFeatureInfo_names_roundtrip (rank_string : String.string)
    (AllgatherStrings : list String.string -> option (list String.string))
    (m : MetaInfo) (info : list String.string) :
  IsColumnSplit m = false ->
  (info = [] \/ num_col_ m = 0%N \/ N.of_nat (length info) = num_col_ m) ->
  SetFeatureInfo rank_string AllgatherStrings m "feature_name" info
  = Some (set_feature_names m info) /\
  GetFeatureInfo (set_feature_names m info) "feature_name" = Some info /\
  GetFeatureInfo (set_feature_names m info) "feature_type"
  = GetFeatureInfo m "feature_type".
Proof.
  intros Hs Hl; unfold SetFeatureInfo; rewrite Hs.
  assert (E : (negb (N.of_nat (length info) =? 0) && negb (num_col_ m =? 0)
               && negb false && negb (N.of_nat (length info) =? num_col_ m))%N
              = false).
  { destruct Hl as [ -> | [ -> | -> ] ]; cbn;
      rewrite ?N.eqb_refl, ?andb_false_r; reflexivity. }
  rewrite E; repeat split; reflexivity.
Qed.

(** With the data split by rows and a list of admissible length, setting
    the feature types stores the names, the types [LoadFeatureType] gives
    them and the categorical flag, and fails on an unknown name; after a
    success [GetFeatureInfo] gives back the names. *)
Theorem SetFeatureInfo_types_roundtrip (rank_string : String.string)
    (AllgatherStrings : list String.string -> option (list String.string))
    (m : MetaInfo) (info : list String.string) :
  IsColumnSplit m = false ->
  (info = [] \/ num_col_ m = 0%N \/ N.of_nat (length info) = num_col_ m) ->
  SetFeatureInfo rank_string AllgatherStrings m "feature_type" info
  = (if forallb valid_type_name info
     then Some (set_feature_type_info m info (map type_of_name info)
                  (existsb (fun s => String.eqb s "c") info))
     else None) /\
  (forall m', SetFeatureInfo rank_string AllgatherStrings m "feature_type" info
              = Some m' ->
   GetFeatureInfo m' "feature_type" = Some info /\
   GetFeatureInfo m' "feature_name" = GetFeatureInfo m "feature_name").
Proof.
  intros Hs Hl.
  assert (Eq : SetFeatureInfo rank_string AllgatherStrings m "feature_type" info
               = (if forallb valid_type_name info
                  then Some (set_feature_type_info m info (map type_of_name info)
                               (existsb (fun s => String.eqb s "c") info))
                  else None)).
  { unfold SetFeatureInfo; rewrite Hs.
    assert (E : (negb (N.of_nat (length info) =? 0) && negb (num_col_ m =? 0)
                 && negb false && negb (N.of_nat (length info) =? num_col_ m))%N
                = false).
    { destruct Hl as [ -> | [ -> | -> ] ]; cbn;
        rewrite ?N.eqb_refl, ?andb_false_r; reflexivity. }
    rewrite E; cbn [String.eqb gather_columns].
    unfold LoadFeatureType; rewrite load_feature_type_loop_eq.
    destruct (forallb valid_type_name info); reflexivity. }
  split; [exact Eq|].
  intros m' H; rewrite Eq in H.
  destruct (forallb valid_type_name info); [|discriminate].
  injection H as <-; split; reflexivity.
Qed.

(** A failed [CHECK_EQ] of the column counts stops a checked [Extend] of a
    [MetaInfo] with columns.  A successful [Extend] always takes the other
    side's column count (also unchecked, where the larger count is
    computed and then overwritten), adds the row counts (wrapping at 64
    bits) when asked to, appends the weights and label bounds, and keeps
    its own [num_nonzero_]. *)
Theorem Extend_shape (Stack : Tensor -> Tensor -> option Tensor)
    (CheckFeatureTypes : list FeatureType -> list FeatureType -> bool)
    (this that : MetaInfo) (accumulate_rows check_column : bool) :
  (check_column = true -> num_col_ this <> 0%N ->
   num_col_ this <> num_col_ that ->
   Extend Stack CheckFeatureTypes this that accumulate_rows check_column = None) /\
  (forall r, Extend Stack CheckFeatureTypes this that accumulate_rows check_column
             = Some r ->
   num_col_ r = num_col_ that /\
   num_row_ r = (if accumulate_rows then to_u64 (num_row_ this + num_row_ that)
                 else num_row_ this) /\
   weights_ r = weights_ this ++ weights_ that /\
   labels_lower_bound_ r = labels_lower_bound_ this ++ labels_lower_bound_ that /\
   labels_upper_bound_ r = labels_upper_bound_ this ++ labels_upper_bound_ that /\
   num_nonzero_ r = num_nonzero_ this).
Proof.
  split.
  - intros -> H1 H2; unfold Extend.
    apply N.eqb_neq in H1, H2; rewrite H1, H2; reflexivity.
  - intros r H; unfold Extend in H;
      split_options H; injection H as <-; cbn; repeat split.
Qed.

(** Adjacent differences of a group pointer: the group sizes. *)
Fixpoint group_sizes (l : list N) : list N :=
  match l with
  | x :: ((y :: _) as t) => (y - x)%N :: group_sizes t
  | _ => []
  end.

Lemma group_sizes_app (l1 l2 : list N) :
  l1 <> [] ->
  group_sizes (l1 ++ l2)
  = group_sizes l1 ++ match l2 with
                      | [] => []
                      | y :: _ => [(y - last l1 0)%N]
                      end ++ group_sizes l2.
Proof.
  induction l1 as [|x l1 IH]; intros Hne; [congruence|].
  destruct l1 as [|x' l1].
  - destruct l2; reflexivity.
  - cbn [app] in IH |- *.
    change (group_sizes (x :: x' :: l1 ++ l2))
      with ((x' - x)%N :: group_sizes (x' :: l1 ++ l2)).
    rewrite IH by discriminate.
    reflexivity.
Qed.

Lemma group_sizes_shift (L : N) (l : list N) :
  group_sizes (map (fun g => g + L)%N l) = group_sizes l.
Proof.
  induction l as [|x l IH]; [reflexivity|].
  destruct l as [|y l]; [reflexivity|].
  cbn [map] in *; cbn [group_sizes] in *; rewrite IH.
  f_equal; lia.
Qed.

Lemma last_app_cons {A} (l1 l2 : list A) (y d : A) :
  last (l1 ++ y :: l2) d = last (y :: l2) d.
Proof.
  induction l1 as [|x l1 IH]; [reflexivity|].
  cbn [app]; rewrite <- IH; destruct l1; reflexivity.
Qed.

Lemma last_map_shift (L : N) (y : N) (l : list N) :
  last (map (fun g => g + L)%N (y :: l)) 0%N = (last (y :: l) 0 + L)%N.
Proof.
  revert y; induction l as [|z l IH]; intros y; [reflexivity|].
  cbn [map last] in *; specialize (IH z); cbn [map] in IH; exact IH.
Qed.

(** [Extend] of a [MetaInfo] with query groups by one without them fails.
    When groups are appended to groups, the other side's pointer starting
    at 0 and the shifted pointers fitting in 32 bits, the group sizes of
    the result are those of this side followed by those of the other, and
    the last pointer is the sum of the two last pointers. *)
Theorem Extend_group_ptr (Stack : Tensor -> Tensor -> option Tensor)
    (CheckFeatureTypes : list FeatureType -> list FeatureType -> bool)
    (this that : MetaInfo) (accumulate_rows check_column : bool) :
  (group_ptr_ this <> [] -> group_ptr_ that = [] ->
   Extend Stack CheckFeatureTypes this that accumulate_rows check_column = None) /\
  (forall r, Extend Stack CheckFeatureTypes this that accumulate_rows check_column
             = Some r ->
   group_ptr_ this <> [] -> hd 0%N (group_ptr_ that) = 0%N ->
   (forall g, In g (group_ptr_ that) -> (g + last (group_ptr_ this) 0 < 2 ^ 32)%N) ->
   group_sizes (group_ptr_ r)
   = group_sizes (group_ptr_ this) ++ group_sizes (group_ptr_ that) /\
   last (group_ptr_ r) 0%N
   = (last (group_ptr_ this) 0 + last (group_ptr_ that) 0)%N).
Proof.
  split.
  - intros H1 H2; unfold Extend.
    destruct (_ && _ && _)%N; [reflexivity|].
    destruct (Stack (labels this) (labels that)); [|reflexivity].
    destruct (Stack (base_margin_ this) (base_margin_ that)); [|reflexivity].
    destruct (group_ptr_ this); [congruence|]; rewrite H2; reflexivity.
  - intros r H Hne H0 Hb; unfold Extend in H.
    assert (Hgp : exists gs, group_ptr_ that = 0%N :: gs /\
                  group_ptr_ r = group_ptr_ this
                    ++ map (fun g => g + last (group_ptr_ this) 0)%N gs).
    { split_options H; injection H as <-; cbn [group_ptr_];
        (match goal with
         | Hne : [] <> [] |- _ => exfalso; exact (Hne eq_refl)
         | E : match group_ptr_ that with [] => None | _ :: _ => _ end = Some _ |- _ =>
             destruct (group_ptr_ that) as [|h gs] eqn:E2; [discriminate E|];
             apply (f_equal (fun o => match o with Some x => x | None => [] end)) in E;
             cbv beta iota in E; subst; cbn in H0; subst;
             exists gs; split; [reflexivity|];
             f_equal; apply map_ext_in; intros g Hg; unfold to_u32;
             apply N.mod_small, (Hb g); try rewrite E2; right; exact Hg
         end). }
    destruct Hgp as (gs & Hth & Hr); rewrite Hr, Hth.
    set (L := last (group_ptr_ this) 0%N).
    split.
    + rewrite group_sizes_app by exact Hne.
      destruct gs as [|y gs]; [cbn; rewrite app_nil_r; reflexivity|].
      rewrite group_sizes_shift; cbn [map]; fold L.
      replace (y + L - L)%N with (y - 0)%N by lia; reflexivity.
    + destruct gs as [|y gs].
      * cbn [map]; rewrite app_nil_r; cbn [last]; unfold L; lia.
      * cbn [map]; rewrite last_app_cons.
        change ((y + L)%N :: map (fun g => g + L)%N gs)
          with (map (fun g => g + L)%N (y :: gs)).
        rewrite last_map_shift.
        change (last (0%N :: y :: gs) 0%N) with (last (y :: gs) 0%N).
        unfold L; lia.
Qed.

(** [Copy] of a [MetaInfo] whose row count fits in 64 bits and whose
    feature types agree with their names, stacking onto an empty tensor
    giving back the tensor, keeps every modelled field but three: the copy
    has [num_nonzero_ = 0] and the default (row) split mode, and an empty
    label order cache. *)
Theorem Copy_result (Stack : Tensor -> Tensor -> option Tensor)
    (CheckFeatureTypes : list FeatureType -> list FeatureType -> bool)
    (m : MetaInfo) :
  Stack tensor_default (labels m) = Some (labels m) ->
  Stack tensor_default (base_margin_ m) = Some (base_margin_ m) ->
  (num_row_ m < 2 ^ 64)%N ->
  (feature_type_names m <> [] ->
   LoadFeatureType (feature_type_names m) = Some (feature_types m, has_categorical_ m)) ->
  (feature_type_names m = [] ->
   has_categorical_ m = existsb IsCatOp (feature_types m)) ->
  Copy Stack CheckFeatureTypes m
  = Some (mkMetaInfo (num_row_ m) (num_col_ m) 0 (labels m) (group_ptr_ m)
            (weights_ m) (base_margin_ m) (labels_lower_bound_ m)
            (labels_upper_bound_ m) (feature_names m) (feature_type_names m)
            (feature_types m) (feature_weights m) (has_categorical_ m) kRow []).
Proof.
  intros Hl Hb Hn Hf1 Hf2; unfold Copy, Extend, meta_default.
  cbn [N.eqb negb andb num_col_ labels base_margin_ group_ptr_ weights_
       labels_lower_bound_ labels_upper_bound_ feature_names feature_types
       feature_type_names feature_weights has_categorical_ data_split_mode
       label_order_cache_ num_row_ num_nonzero_ app].
  rewrite Hl, Hb.
  assert (Hr : to_u64 (0 + num_row_ m) = num_row_ m)
    by (unfold to_u64; rewrite N.add_0_l; apply N.mod_small; exact Hn).
  rewrite Hr.
  assert (Hfn : match feature_names m with [] => [] | _ :: _ => feature_names m end
                = feature_names m) by (destruct (feature_names m); reflexivity).
  assert (Hfw : match feature_weights m with [] => [] | _ :: _ => feature_weights m end
                = feature_weights m) by (destruct (feature_weights m); reflexivity).
  rewrite Hfn, Hfw.
  destruct (feature_type_names m) as [|n ns] eqn:En.
  - rewrite (Hf2 eq_refl).
    destruct (feature_types m); reflexivity.
  - rewrite Hf1 by discriminate; reflexivity.
Qed.






(** ** Instances of the [MetaInfo] properties *)

(** Two rows, two label columns, two query groups of one row each with
    per-group weights, no base margin. *)
Definition meta_w1 : MetaInfo :=
  mkMetaInfo 2 3 4 (mkTensor 2 2 [Fin 1; Fin 2; Fin 3; Fin 4]) [0; 1; 2]%N
    [Fin 1; Fin 2] tensor_default [] [] ["a"; "b"; "c"] ["int"; "c"; "q"]
    [kNumerical; kCategorical; kNumerical] [] true kRow [].

Lemma Slice_meta_witness :
  exists out, Slice meta_w1 [1; 1; 0] 5 = Some out /\
  num_row_ out = N.of_nat (length [1; 1; 0]) /\ num_col_ out = num_col_ meta_w1 /\
  num_nonzero_ out = 5%N /\ group_ptr_ out = [] /\
  has_categorical_ out = false /\ data_split_mode out = kRow /\
  feature_names out = feature_names meta_w1 /\
  feature_type_names out = feature_type_names meta_w1 /\
  feature_types out = feature_types meta_w1 /\
  feature_weights out = feature_weights meta_w1 /\
  (length (weights_ meta_w1) + 1 = length (group_ptr_ meta_w1) -> weights_ out = []).
Proof.
  destruct (Slice meta_w1 [1; 1; 0] 5) as [out|] eqn:E.
  - exists out; split; [reflexivity|].
    exact (Slice_meta meta_w1 out [1; 1; 0] 5 E).
  - vm_compute in E; discriminate E.
Defined.

Lemma Slice_labels_witness :
  exists out, Slice meta_w1 [1; 1; 0] 5 = Some out /\
  labels out
  = mkTensor 3 2
      (concat (map (fun i => firstn 2 (skipn (i * 2) (tdata (labels meta_w1))))
                   [1; 1; 0])).
Proof.
  destruct (Slice meta_w1 [1; 1; 0] 5) as [out|] eqn:E.
  - exists out; split; [reflexivity|].
    apply (Slice_labels meta_w1 out [1; 1; 0] 5 2 E);
      [reflexivity|cbn; lia|cbn; lia|reflexivity|].
    intros i Hi; cbn in Hi |- *; lia.
  - vm_compute in E; discriminate E.
Defined.

Lemma SetFeatureInfo_length_check_witness :
  IsColumnSplit meta_w1 = false /\ ["x"] <> [] /\ num_col_ meta_w1 <> 0%N /\
  N.of_nat (length ["x"]) <> num_col_ meta_w1 /\
  SetFeatureInfo "0" Some meta_w1 "feature_name" ["x"] = None.
Proof.
  assert (H2 : ["x"] <> []) by discriminate.
  assert (H3 : num_col_ meta_w1 <> 0%N) by discriminate.
  assert (H4 : N.of_nat (length ["x"]) <> num_col_ meta_w1) by discriminate.
  split; [reflexivity|]; split; [exact H2|]; split; [exact H3|]; split; [exact H4|].
  exact (SetFeatureInfo_length_check "0" Some meta_w1 "feature_name" ["x"]
           eq_refl H2 H3 H4).
Defined.

Lemma SetFeatureInfo_names_roundtrip_witness :
  IsColumnSplit meta_w1 = false /\
  SetFeatureInfo "0" Some meta_w1 "feature_name" ["f0"; "f1"; "f2"]
  = Some (set_feature_names meta_w1 ["f0"; "f1"; "f2"]) /\
  GetFeatureInfo (set_feature_names meta_w1 ["f0"; "f1"; "f2"]) "feature_name"
  = Some ["f0"; "f1"; "f2"] /\
  GetFeatureInfo (set_feature_names meta_w1 ["f0"; "f1"; "f2"]) "feature_type"
  = GetFeatureInfo meta_w1 "feature_type".
Proof.
  split; [reflexivity|].
  apply (SetFeatureInfo_names_roundtrip "0" Some meta_w1 ["f0"; "f1"; "f2"]
           eq_refl).
  right; right; reflexivity.
Defined.

Lemma SetFeatureInfo_types_roundtrip_witness :
  SetFeatureInfo "0" Some meta_w1 "feature_type" ["c"; "float"; "i"]
  = Some (set_feature_type_info meta_w1 ["c"; "float"; "i"]
            [kCategorical; kNumerical; kNumerical] true) /\
  SetFeatureInfo "0" Some meta_w1 "feature_type" ["c"; "bool"; "i"] = None.
Proof.
  split.
  - exact (proj1 (SetFeatureInfo_types_roundtrip "0" Some meta_w1 ["c"; "float"; "i"]
                    eq_refl (or_intror (or_intror eq_refl)))).
  - exact (proj1 (SetFeatureInfo_types_roundtrip "0" Some meta_w1 ["c"; "bool"; "i"]
                    eq_refl (or_intror (or_intror eq_refl)))).
Defined.

(** A [linalg::Stack] for the instances: rows of [r] below those of [l],
    [r] itself onto an empty [l]. *)
Definition stack_rows (l r : Tensor) : option Tensor :=
  match tdata l with
  | [] => Some r
  | _ => Some (mkTensor (shape0 l + shape0 r) (shape1 r) (tdata l ++ tdata r))
  end.

Lemma Copy_result_witness :
  Copy stack_rows (fun _ _ => true) meta_w1
  = Some (mkMetaInfo 2 3 0 (labels meta_w1) (group_ptr_ meta_w1)
            (weights_ meta_w1) tensor_default [] [] (feature_names meta_w1)
            (feature_type_names meta_w1) (feature_types meta_w1) []
            true kRow []).
Proof.
  apply (Copy_result stack_rows (fun _ _ => true) meta_w1);
    [reflexivity|reflexivity|reflexivity|intros _; reflexivity|discriminate].
Defined.

Lemma Extend_group_ptr_witness :
  exists r, Extend stack_rows (fun _ _ => true) meta_w1 meta_w1 true true = Some r /\
  group_sizes (group_ptr_ r) = [1; 1; 1; 1]%N /\
  last (group_ptr_ r) 0%N = 4%N.
Proof.
  destruct (Extend stack_rows (fun _ _ => true) meta_w1 meta_w1 true true)
    as [r|] eqn:E.
  - exists r; split; [reflexivity|].
    destruct (proj2 (Extend_group_ptr stack_rows (fun _ _ => true)
                       meta_w1 meta_w1 true true) r E) as [H1 H2];
      [discriminate|reflexivity| |].
    + intros g Hg; cbn in Hg; repeat (destruct Hg as [<-|Hg]; [cbn; lia|]);
        contradiction.
    + rewrite H1, H2; split; reflexivity.
  - vm_compute in E; discriminate E.
Defined.

End MetaInfoModel.
